(** * The Markdown token-to-document builder of [src/markdown/from_markdown.js]

    A shallow embedding of the parse state ([MarkdownParseState]), of the
    registry of token handlers ([registerTokens], [summarizeTokens],
    [tokenTypeInfo]), of the driver ([fromMarkdown]) and of the parse
    declarations the file registers, followed by the properties of the
    specification that concern them. *)

From Stdlib Require Import ZArith Ascii String List Lia.
From stdpp Require Import base decidable option list strings gmap.

Local Open Scope string_scope.
Local Open Scope list_scope.
Local Open Scope Z_scope.

Set Warnings "-register-all".

(** ** Exceptions

    Every function of the source that can throw returns a [Result]: the
    left summand is the exception that unwinds the call. *)

Inductive Exception : Type :=
| Error_ (message : string)          (* [throw new Error(message)] *)
| AssertionError (message : string)  (* [AssertionError.raise(message)] *)
| TypeError (message : string)       (* raised by the JavaScript runtime *)
| OutOfFuel.                         (* the bound of a loop of the model is exhausted *)

Definition Result (A : Type) : Type := Exception + A.

Definition ret {A} (a : A) : Result A := inr a.
Definition throw {A} (e : Exception) : Result A := inl e.
Definition bind {A B} (r : Result A) (k : A -> Result B) : Result B :=
  match r with
  | inl e => inl e
  | inr a => k a
  end.

Declare Scope Result_scope.
Delimit Scope Result_scope with R.
Notation "x <- r ;; k" := (bind r (fun x => k))
  (at level 100, r at next level, right associativity) : Result_scope.

(** ** JavaScript values and builtins *)

Module JS.

(** Numbers: the doubles. [Int z] is a double whose value is the integer
    [z], [+0] included; [NegZero] is [-0]; [Frac m e] is the double
    [m * 2^e] that is not an integer, with [m] odd and [e] negative. *)
Inductive Num : Type :=
| NaN
| Int (z : Z)
| NegZero
| Infinity (negative : bool)
| Frac (m e : Z).

(** The primitive values a token attribute or a node attribute can hold. *)
Inductive Value : Type :=
| VUndefined
| VNull
| VBool (b : bool)
| VNum (n : Num)
| VStr (s : string).

#[global] Instance Num_eq_dec : EqDecision Num.
Proof. solve_decision. Defined.

#[global] Instance Value_eq_dec : EqDecision Value.
Proof. solve_decision. Defined.

(** [ToBoolean]. *)
Definition toBoolean (v : Value) : bool :=
  match v with
  | VUndefined | VNull => false
  | VBool b => b
  | VNum NaN | VNum NegZero => false
  | VNum (Int z) => negb (z =? 0)
  | VNum (Infinity _) | VNum (Frac _ _) => true
  | VStr s => negb (String.length s =? 0)%nat
  end.

(** [a || b]. *)
Definition or (a b : Value) : Value := if toBoolean a then a else b.

(** [str.length], as an integer. *)
Definition length (str : string) : Z := Z.of_nat (String.length str).

(** [str.charAt(pos)]: the empty string when [pos] is out of range. *)
Definition charAt (str : string) (pos : Z) : string :=
  if (pos <? 0) || (length str <=? pos) then ""
  else substring (Z.to_nat pos) 1 str.

(** A relative index of [slice], clamped to [0 .. len]. *)
Definition clamp (len i : Z) : Z :=
  if i <? 0 then Z.max (len + i) 0 else Z.min i len.

(** [str.slice(start, end)]; [None] is an omitted [end]. *)
Definition slice (str : string) (start : Z) (end_ : option Z) : string :=
  let len := length str in
  let from := clamp len start in
  let to := match end_ with None => len | Some e => clamp len e end in
  substring (Z.to_nat from) (Z.to_nat (Z.max (to - from) 0)) str.

(** The line feed character, ["\n"]. *)
Definition LF : string := String "010"%char EmptyString.

(** *** [Number(v)]

    On strings [Number] is StringToNumber: white space is stripped from
    both ends, what is left is read by the grammar of StrNumericLiteral,
    and the value of the literal is rounded to the nearest double, ties to
    the even one. A string that the grammar does not derive gives [NaN].
    Strings are the UTF-8 encodings of the strings of the program, so the
    white space characters outside ASCII are sequences of bytes. *)

Definition isDigit (c : ascii) : bool :=
  let n := nat_of_ascii c in ((48 <=? n) && (n <=? 57))%nat.

Definition digitsValue (l : list ascii) : Z :=
  fold_left (fun acc c => 10 * acc + (Z.of_nat (nat_of_ascii c) - 48)) l 0.

(** WhiteSpace and LineTerminator: TAB, LF, VT, FF, CR, SP, U+00A0,
    U+1680, U+2000 to U+200A, U+2028, U+2029, U+202F, U+205F, U+3000 and
    U+FEFF. *)
Definition whiteSpaces : list (list nat) :=
  ([[9]; [10]; [11]; [12]; [13]; [32]; [194; 160]; [225; 154; 128]]
   ++ map (fun n => [226; 128; n]) (seq 128 11)
   ++ [[226; 128; 168]; [226; 128; 169]; [226; 128; 175]; [226; 129; 159];
       [227; 128; 128]; [239; 187; 191]])%nat.

Fixpoint startsWith (pre : list nat) (l : list ascii) : bool :=
  match pre, l with
  | [], _ => true
  | n :: pre', c :: l' => (nat_of_ascii c =? n)%nat && startsWith pre' l'
  | _ :: _, [] => false
  end.

(** The number of bytes of the white space character that [l] starts
    with, 0 when it starts with none. *)
Definition whiteSpaceLength (seqs : list (list nat)) (l : list ascii) : nat :=
  match find (fun ws => startsWith ws l) seqs with
  | Some ws => List.length ws
  | None => 0%nat
  end.

Fixpoint trimStart (seqs : list (list nat)) (rounds : nat) (l : list ascii)
    : list ascii :=
  match rounds with
  | O => l
  | S rounds' =>
      match whiteSpaceLength seqs l with
      | O => l
      | n => trimStart seqs rounds' (skipn n l)
      end
  end.

Definition trim (l : list ascii) : list ascii :=
  let l1 := trimStart whiteSpaces (List.length l) l in
  rev (trimStart (map (@rev nat) whiteSpaces) (List.length l1) (rev l1)).

(** What a StrNumericLiteral denotes: [Infinity], a decimal literal
    [mantissa * 10^exp10], or the integer of a binary, octal or
    hexadecimal literal. *)
Inductive Literal : Type :=
| LInfinity (negative : bool)
| LDecimal (negative : bool) (mantissa exp10 : Z)
| LInteger (value : Z).

Fixpoint span {A} (p : A -> bool) (l : list A) : list A * list A :=
  match l with
  | [] => ([], [])
  | x :: l' =>
      if p x then let (a, b) := span p l' in (x :: a, b) else ([], l)
  end.

Definition nonEmpty {A} (l : list A) : bool :=
  match l with [] => false | _ :: _ => true end.

(** ExponentPart, when there is one: [e] or [E], an optional sign and
    digits, up to the end. *)
Definition exponentPart (rest : list ascii) : option Z :=
  match rest with
  | [] => Some 0
  | c :: rest' =>
      if ((c =? "e") || (c =? "E"))%char then
        let (negative, ds) :=
          match rest' with
          | s :: ds =>
              if (s =? "+")%char then (false, ds)
              else if (s =? "-")%char then (true, ds)
              else (false, rest')
          | [] => (false, rest')
          end in
        if nonEmpty ds && forallb isDigit ds
        then Some (if negative then - digitsValue ds else digitsValue ds)
        else None
      else None
  end.

(** StrUnsignedDecimalLiteral *)
Definition strUnsignedDecimalLiteral (negative : bool) (l : list ascii)
    : option Literal :=
  if bool_decide (l = list_ascii_of_string "Infinity") then Some (LInfinity negative)
  else
    let (ip, r1) := span isDigit l in
    match r1 with
    | [] => if nonEmpty ip then Some (LDecimal negative (digitsValue ip) 0) else None
    | c :: r2 =>
        if (c =? ".")%char then
          let (fp, r3) := span isDigit r2 in
          if nonEmpty ip || nonEmpty fp then
            match exponentPart r3 with
            | Some ex =>
                Some (LDecimal negative (digitsValue (ip ++ fp))
                        (ex - Z.of_nat (List.length fp)))
            | None => None
            end
          else None
        else if nonEmpty ip then
          match exponentPart r1 with
          | Some ex => Some (LDecimal negative (digitsValue ip) ex)
          | None => None
          end
        else None
    end.

Definition digitOfBase (base : Z) (c : ascii) : option Z :=
  let n := Z.of_nat (nat_of_ascii c) in
  let v := if (48 <=? n) && (n <=? 57) then n - 48
           else if (97 <=? n) && (n <=? 102) then n - 87
           else if (65 <=? n) && (n <=? 70) then n - 55
           else base in
  if v <? base then Some v else None.

Fixpoint digitsOfBase (base : Z) (l : list ascii) (acc : Z) : option Z :=
  match l with
  | [] => Some acc
  | c :: l' =>
      match digitOfBase base c with
      | Some v => digitsOfBase base l' (base * acc + v)
      | None => None
      end
  end.

Definition radixOf (c : ascii) : option Z :=
  if ((c =? "x") || (c =? "X"))%char then Some 16
  else if ((c =? "o") || (c =? "O"))%char then Some 8
  else if ((c =? "b") || (c =? "B"))%char then Some 2
  else None.

(** NonDecimalIntegerLiteral: [0x], [0o] or [0b] and at least one digit. *)
Definition nonDecimalIntegerLiteral (l : list ascii) : option Z :=
  match l with
  | z :: x :: d :: ds =>
      if (z =? "0")%char then
        match radixOf x with
        | Some base => digitsOfBase base (d :: ds) 0
        | None => None
        end
      else None
  | _ => None
  end.

(** StrNumericLiteral; only a decimal literal takes a sign. *)
Definition strNumericLiteral (l : list ascii) : option Literal :=
  match nonDecimalIntegerLiteral l with
  | Some v => Some (LInteger v)
  | None =>
      match l with
      | c :: l' =>
          if (c =? "+")%char then strUnsignedDecimalLiteral false l'
          else if (c =? "-")%char then strUnsignedDecimalLiteral true l'
          else strUnsignedDecimalLiteral false l
      | [] => None
      end
  end.

(** StringNumericLiteral: white space alone denotes 0. *)
Definition stringNumericLiteral (s : string) : option Literal :=
  match trim (list_ascii_of_string s) with
  | [] => Some (LInteger 0)
  | l => strNumericLiteral l
  end.

Definition zero (negative : bool) : Num := if negative then NegZero else Int 0.

Definition signed (negative : bool) (z : Z) : Z := if negative then - z else z.

(** The double [m * 2^e] in the form of [Num]: factors of two go from [m]
    to the exponent as long as the exponent is negative. *)
Fixpoint stripTwos (m : positive) (e : Z) : positive * Z :=
  match m with
  | xO m' => if e <? 0 then stripTwos m' (e + 1) else (m, e)
  | _ => (m, e)
  end.

Definition ofBinary (negative : bool) (m e : Z) : Num :=
  match m with
  | Zpos pm =>
      let (m', e') := stripTwos pm e in
      if e' <? 0 then Frac (signed negative (Zpos m')) e'
      else Int (signed negative (Zpos m' * 2 ^ e'))
  | _ => zero negative
  end.

(** The integer nearest to [n / d], the even one of two that are equally
    near. *)
Definition roundHalfEven (n d : Z) : Z :=
  let q := n / d in
  let r := n mod d in
  if 2 * r <? d then q
  else if d <? 2 * r then q + 1
  else if Z.even q then q else q + 1.

(** [p / q < 2^k] *)
Definition belowPow2 (p q k : Z) : bool :=
  if 0 <=? k then p <? q * 2 ^ k else p * 2 ^ (- k) <? q.

(** The double nearest to [p / q], for [0 <= p] and [0 < q]: an integer up
    to 2^53 is a double; otherwise the quotient is rounded to 53 bits, or
    to a multiple of 2^-1074 below the normal range, and what reaches
    2^1024 is infinite. *)
Definition nearestDouble (negative : bool) (p q : Z) : Num :=
  if p <=? 0 then zero negative
  else if (p mod q =? 0) && (p / q <=? 2 ^ 53) then Int (signed negative (p / q))
  else
    let k0 := Z.log2 p - Z.log2 q in
    let k := if belowPow2 p q k0 then k0 - 1 else k0 in
    let e := Z.max (k - 52) (-1074) in
    let m := roundHalfEven (p * 2 ^ Z.max (- e) 0) (q * 2 ^ Z.max e 0) in
    if (0 <=? e) && (2 ^ 1024 <=? m * 2 ^ e) then Infinity negative
    else ofBinary negative m e.

(** The Number value of a literal. A decimal exponent beyond 400, or so
    low that the value is below 10^-400, decides the result without the
    power of ten being computed. *)
Definition literalValue (lit : Literal) : Num :=
  match lit with
  | LInfinity negative => Infinity negative
  | LInteger v => nearestDouble false v 1
  | LDecimal negative m e =>
      if m <=? 0 then zero negative
      else if 400 <? e then Infinity negative
      else if e + Z.log2 m + 1 <? -400 then zero negative
      else if 0 <=? e then nearestDouble negative (m * 10 ^ e) 1
      else nearestDouble negative m (10 ^ (- e))
  end.

Definition StringToNumber (s : string) : Num :=
  match stringNumericLiteral s with
  | Some lit => literalValue lit
  | None => NaN
  end.

Definition Number (v : Value) : Num :=
  match v with
  | VUndefined => NaN
  | VNull => Int 0
  | VBool b => Int (if b then 1 else 0)
  | VNum n => n
  | VStr s => StringToNumber s
  end.

End JS.

(** ** The document model ([../model]) as this file uses it *)

(** A node type or a mark type of the schema. The source only stores these
    objects, hands them to the factories and compares them by identity;
    the name stands for that identity. *)
Inductive SchemaItem : Type := Item (name : string).

Abbreviation NodeType := SchemaItem (only parsing).
Abbreviation MarkType := SchemaItem (only parsing).

#[global] Instance SchemaItem_eq_dec : EqDecision SchemaItem.
Proof. solve_decision. Defined.

(** An attribute object; [None] where the source passes [undefined]. *)
Abbreviation Attrs := (list (string * JS.Value)) (only parsing).

(** Modelled from the spec: the mark factory [type.create(attrs)] of
    [../model] ("a mark-construction factory taking (type, attrs) and
    returning a Mark value"); a mark is the pair it was created from, and
    "marks are compared by type identity plus attribute equality". *)
Record Mark : Type := create { mark_type : MarkType; mark_attrs : option Attrs }.

#[global] Instance Mark_eq_dec : EqDecision Mark.
Proof. solve_decision. Defined.

(** [const noMarks = []]. *)
Definition noMarks : list Mark := [].

(** Modelled from the spec: [mark.addToSet(set)] of [../model] ("returns a
    new set with mark inserted (replacing any existing entry of identical
    type+attributes, no-op if already present)", "new marks are appended,
    preserving existing relative order"). *)
Definition addToSet (mark : Mark) (set : list Mark) : list Mark :=
  if decide (mark ∈ set) then set else set ++ [mark].

(** Modelled from the spec: [type.removeFromSet(set)] of [../model]
    ("returns a new set with any entry of that mark type removed,
    regardless of attributes; absent-case is a no-op"). *)
Definition removeFromSet (type : MarkType) (set : list Mark) : list Mark :=
  filter (fun m => mark_type m ≠ type) set.

(** Modelled from the spec: [Mark.sameSet(a, b)] of [../model] ("two sets
    are equal iff they contain the same marks (by type+attribute identity)
    regardless of order"). *)
Definition sameSet (a b : list Mark) : bool :=
  forallb (fun m => bool_decide (m ∈ b)) a
  && forallb (fun m => bool_decide (m ∈ a)) b.

(** Modelled from the spec: the node factories of [../model]. A node is
    the record of the factory call that made it: [Text text marks] is
    [schema.text(text, marks)], and [Elem type attrs content marks] is
    [type.createAutoFill(attrs, content, marks)] ("a node-construction
    factory taking (type, attrs, children, marks)"); the children the
    factory may add to satisfy the content model are not represented. *)
Inductive Node : Type :=
| Text (text : string) (marks : list Mark)
| Elem (type : NodeType) (attrs : option Attrs)
       (content : option (list Node)) (marks : list Mark).

(** Modelled from the spec: [type.createAutoFill(attrs, content, marks)]
    of [../model], the factory above. The node is the call with its four
    arguments; the statements below are about what the factory is handed,
    not about what it fills in. *)
Definition createAutoFill (type : NodeType) (attrs : option Attrs)
    (content : option (list Node)) (marks : list Mark) : Node :=
  Elem type attrs content marks.

(** [function maybeMerge(a, b)]: [None] is the [undefined] the function
    returns when it falls off its end. [a.copy(text)] keeps the marks of
    [a]. *)
Definition maybeMerge (a b : Node) : option Node :=
  match a, b with
  | Text a_text a_marks, Text b_text b_marks =>
      if sameSet a_marks b_marks then Some (Text (a_text +:+ b_text) a_marks)
      else None
  | _, _ => None
  end.

(** ** Tokens of markdown-it *)

Inductive Token : Type := mkToken {
  tok_type : string;
  tok_tag : string;
  tok_attrs : option (list (string * JS.Value));   (* [null] or [[name, value], ...] *)
  tok_content : string;
  tok_markup : string;
  tok_children : option (list Token)                (* [null] or an array *)
}.

(** ** [class MarkdownParseState]

    The fields [schema], [tokens] and [tokenTypes] are set by the
    constructor and never assigned again; they are parameters of the
    functions that read them. [State] is the part a parse mutates. The
    stack is kept with its top first: [stack.push] conses and [stack.pop]
    takes the head. *)

Record Frame : Type := mkFrame {
  type : NodeType;
  attrs : option Attrs;
  content : list Node
}.

Record State : Type := mkState {
  stack : list Frame;
  marks : list Mark
}.

(** A method of the state: it reads and writes the state, and returns or
    throws. *)
Definition M (A : Type) : Type := State -> Result (A * State).

Definition retM {A} (a : A) : M A := fun st => inr (a, st).
Definition throwM {A} (e : Exception) : M A := fun _ => inl e.
Definition bindM {A B} (m : M A) (k : A -> M B) : M B :=
  fun st => match m st with
            | inl e => inl e
            | inr (a, st') => k a st'
            end.
Definition get : M State := fun st => inr (st, st).

Declare Scope M_scope.
Delimit Scope M_scope with M.
Notation "x <- m ;; k" := (bindM m (fun x => k))
  (at level 100, m at next level, right associativity) : M_scope.
Notation "m ;; k" := (bindM m (fun _ => k))
  (at level 100, right associativity) : M_scope.

Local Open Scope M_scope.

(** [top()]: [None] is the [undefined] that indexing an empty stack gives. *)
Definition top (st : State) : option Frame := head (stack st).

(** [push(elt)]: [top().content.push(elt)] when the stack is not empty. *)
Definition pushOnto (elt : Node) (stack : list Frame) : list Frame :=
  match stack with
  | [] => []
  | f :: below => mkFrame (type f) (attrs f) (content f ++ [elt]) :: below
  end.

Definition push (elt : Node) : M unit := fun st =>
  inr (tt, mkState (pushOnto elt (stack st)) (marks st)).

(** [addText(text)]. [appendOrMerge] is its last two lines, on the array
    [nodes] of the top frame. *)
Definition appendOrMerge (nodes : list Node) (node : Node) : list Node :=
  match last nodes with
  | Some last_ =>
      match maybeMerge last_ node with
      | Some merged => <[(List.length nodes - 1)%nat := merged]> nodes
      | None => nodes ++ [node]
      end
  | None => nodes ++ [node]
  end.

Definition addText (text : string) : M unit := fun st =>
  match stack st with
  | [] => inl (TypeError "this.top() is undefined")
  | f :: below =>
      let nodes := content f in
      let node := Text text (marks st) in
      inr (tt, mkState (mkFrame (type f) (attrs f) (appendOrMerge nodes node) :: below)
                       (marks st))
  end.

(** [openMark(mark)] *)
Definition openMark (mark : Mark) : M unit := fun st =>
  inr (tt, mkState (stack st) (addToSet mark (marks st))).

(** [closeMark(mark)]; the handlers call it with a mark type. *)
Definition closeMark (mark : MarkType) : M unit := fun st =>
  inr (tt, mkState (stack st) (removeFromSet mark (marks st))).

(** [addNode(type, attrs, content)] *)
Definition addNode (type : NodeType) (attrs : option Attrs)
    (content : option (list Node)) : M Node :=
  st <- get ;;
  let node := createAutoFill type attrs content (marks st) in
  push node ;;
  retM node.

(** [openNode(type, attrs)] *)
Definition openNode (type : NodeType) (attrs : option Attrs) : M unit := fun st =>
  inr (tt, mkState (mkFrame type attrs [] :: stack st) (marks st)).

(** [closeNode()] *)
Definition closeNode : M Node := fun st =>
  let marks' := if negb (List.length (marks st) =? 0)%nat then noMarks else marks st in
  match stack st with
  | [] => inl (TypeError "info is undefined")
  | info :: below =>
      addNode (type info) (attrs info) (Some (content info)) (mkState below marks')
  end.

(** [getAttr(tok, name)]; the method does not touch the state. *)
Definition getAttr (tok : Token) (name : string) : JS.Value :=
  match tok_attrs tok with
  | None => JS.VUndefined
  | Some attrs =>
      match find (fun a => bool_decide (a.1 = name)) attrs with
      | Some a => a.2
      | None => JS.VUndefined
      end
  end.

(** ** The registry of token handlers *)

(** A value of the [tokens] table. Every handler of the source is a
    function of the state and the token; the one under ["inline"] calls
    [parseTokens] back and is kept as a constructor of its own, so that
    [parseTokens] can recurse on the children of the token. *)
Inductive Handler : Type :=
| Inline
| Call (f : Token -> M unit).

(** The [parse] property of a specification ([MarkdownParseSpec.parse],
    [union<string, function>]); the function receives its [this]. Like
    the functions this file registers, it works through the methods of the
    state and does not call [parseTokens]. *)
Inductive Parse : Type :=
| ParseString (s : string)
| ParseFunction (f : SchemaItem -> Token -> M unit)
| ParseAbsent.

(** The [attrs] property: an object (or nothing), or a function of the
    state and the token. *)
Inductive AttrsSpec : Type :=
| AttrsObject (a : option Attrs)
| AttrsFunction (f : Token -> M (option Attrs)).

Record MarkdownParseSpec : Type := mkSpec {
  token : string;
  parse : Parse;
  spec_attrs : AttrsSpec
}.

(** [info.parse == s] for a string [s]. *)
Definition parse_eq (p : Parse) (s : string) : bool :=
  match p with
  | ParseString s' => bool_decide (s' = s)
  | _ => false
  end.

(** The truth value of [info.parse]. *)
Definition parse_truthy (p : Parse) : bool :=
  match p with
  | ParseString s => JS.toBoolean (JS.VStr s)
  | ParseFunction _ => true
  | ParseAbsent => false
  end.

(** [typeof info.attrs == "function" ? info.attrs(state, tok) : info.attrs] *)
Definition computeAttrs (info : MarkdownParseSpec) (tok : Token) : M (option Attrs) :=
  match spec_attrs info with
  | AttrsFunction f => f tok
  | AttrsObject a => retM a
  end.

(** The four closures [registerTokens] builds. *)
Definition blockOpen (type : NodeType) (info : MarkdownParseSpec) (tok : Token) : M unit :=
  attrs <- computeAttrs info tok ;;
  openNode type attrs.

Definition blockClose (tok : Token) : M unit :=
  closeNode ;; retM tt.

Definition markOpen (type : MarkType) (info : MarkdownParseSpec) (tok : Token) : M unit :=
  attrs <- computeAttrs info tok ;;
  openMark (create type attrs).

Definition markClose (type : MarkType) (tok : Token) : M unit :=
  closeMark type.

Local Open Scope Result_scope.

(** [function registerTokens(tokens, type, info)]. The table is returned
    instead of mutated. [info.parse.bind] is [undefined] on a string, so
    calling it throws. *)
Definition registerTokens (tokens : gmap string Handler) (type : SchemaItem)
    (info : MarkdownParseSpec) : Result (gmap string Handler) :=
  if parse_eq (parse info) "block" then
    ret (<[token info +:+ "_close" := Call blockClose]>
           (<[token info +:+ "_open" := Call (blockOpen type info)]> tokens))
  else if parse_eq (parse info) "mark" then
    ret (<[token info +:+ "_close" := Call (markClose type)]>
           (<[token info +:+ "_open" := Call (markOpen type info)]> tokens))
  else if parse_truthy (parse info) then
    match parse info with
    | ParseFunction f => ret (<[token info := Call (f type)]> tokens)
    | _ => throw (TypeError "info.parse.bind is not a function")
    end
  else throw (AssertionError "Unrecognized markdown parsing spec: [object Object]").

(** The schema, as far as this file reads it: [schema.nodes.doc], the
    pairs that [schema.registry("parseMarkdown", f)] passes to [f], in
    the order of the calls, and [schema.cached.markdownTokens]. *)
Record Schema : Type := mkSchema {
  nodes_doc : NodeType;
  registry_parseMarkdown : list (MarkdownParseSpec * SchemaItem);
  cached_markdownTokens : option (gmap string Handler)
}.

(** The three handlers [summarizeTokens] installs first. *)
Definition textHandler (tok : Token) : M unit := addText (tok_content tok).
Definition softbreakHandler (tok : Token) : M unit := addText JS.LF.

Definition builtinTokens : gmap string Handler :=
  <["softbreak" := Call softbreakHandler]>
    (<["inline" := Inline]>
       (<["text" := Call textHandler]> ∅)).

(** The loop of [schema.registry]: the first call that throws ends it. *)
Fixpoint registerAll (tokens : gmap string Handler)
    (entries : list (MarkdownParseSpec * SchemaItem)) : Result (gmap string Handler) :=
  match entries with
  | [] => ret tokens
  | (info, type) :: entries' =>
      tokens' <- registerTokens tokens type info ;;
      registerAll tokens' entries'
  end.

(** [function summarizeTokens(schema)] *)
Definition summarizeTokens (schema : Schema) : Result (gmap string Handler) :=
  registerAll builtinTokens (registry_parseMarkdown schema).

(** [function tokenTypeInfo(schema)]: the table, and the schema with its
    cache filled. *)
Definition tokenTypeInfo (schema : Schema) : Result (gmap string Handler * Schema) :=
  match cached_markdownTokens schema with
  | Some tokens => ret (tokens, schema)
  | None =>
      tokens <- summarizeTokens schema ;;
      ret (tokens, mkSchema (nodes_doc schema) (registry_parseMarkdown schema) (Some tokens))
  end.

Local Close Scope Result_scope.

(** ** [parseTokens] and the driver *)

Definition unsupported (type : string) : Exception :=
  Error_ ("Token type `" +:+ type +:+ "` not supported by Markdown parser").

(** The body of the loop of [parseTokens], for one token. Under an
    [Inline] handler the nested loop is [parseTokens] on [tok.children];
    reading [toks.length] of a [null] children list throws. *)
Fixpoint parseToken (tokenTypes : gmap string Handler) (tok : Token) : M unit :=
  match tok with
  | mkToken type _ _ _ _ children =>
      match tokenTypes !! type with
      | None => throwM (unsupported type)
      | Some Inline =>
          match children with
          | None => throwM (TypeError "toks is null")
          | Some toks =>
              (fix loop (toks : list Token) : M unit :=
                 match toks with
                 | [] => retM tt
                 | tok' :: toks' => parseToken tokenTypes tok' ;; loop toks'
                 end) toks
          end
      | Some (Call tokenType) => tokenType tok
      end
  end.

(** [parseTokens(toks)] *)
Fixpoint parseTokens (tokenTypes : gmap string Handler) (toks : list Token) : M unit :=
  match toks with
  | [] => retM tt
  | tok :: toks' => parseToken tokenTypes tok ;; parseTokens tokenTypes toks'
  end.

(** [new MarkdownParseState(schema, tokens)]: the mutable fields. *)
Definition initialState (schema : Schema) : State :=
  mkState [mkFrame (nodes_doc schema) None []] noMarks.

(** [do { doc = state.closeNode() } while (state.stack.length)]. Each
    round pops a frame, so the length of the stack bounds the rounds. *)
Fixpoint closeAll (rounds : nat) : M Node := fun st =>
  match closeNode st with
  | inl e => inl e
  | inr (doc, st') =>
      if negb (List.length (stack st') =? 0)%nat then
        match rounds with
        | O => inl OutOfFuel
        | S rounds' => closeAll rounds' st'
        end
      else inr (doc, st')
  end.

(** [function fromMarkdown(schema, text)], from the tokens that
    [markdownit("commonmark").parse(text, {})] returned. The result comes
    with the schema, whose cache the call may have filled. *)
Definition fromMarkdown (schema : Schema) (tokens : list Token) : Result Node * Schema :=
  match tokenTypeInfo schema with
  | inl e => (inl e, schema)
  | inr (tokenTypes, schema') =>
      let run :=
        parseTokens tokenTypes tokens ;;
        st <- get ;;
        closeAll (List.length (stack st)) in
      (match run (initialState schema') with
       | inl e => inl e
       | inr (doc, _) => inr doc
       end, schema')
  end.

(** ** The parse declarations of the file *)

Definition BlockQuote : NodeType := Item "BlockQuote".
Definition OrderedList : NodeType := Item "OrderedList".
Definition BulletList : NodeType := Item "BulletList".
Definition ListItem : NodeType := Item "ListItem".
Definition HorizontalRule : NodeType := Item "HorizontalRule".
Definition Paragraph : NodeType := Item "Paragraph".
Definition Heading : NodeType := Item "Heading".
Definition CodeBlock : NodeType := Item "CodeBlock".
Definition Image : NodeType := Item "Image".
Definition HardBreak : NodeType := Item "HardBreak".
Definition EmMark : MarkType := Item "EmMark".
Definition StrongMark : MarkType := Item "StrongMark".
Definition LinkMark : MarkType := Item "LinkMark".
Definition CodeMark : MarkType := Item "CodeMark".

(** [attrs] of the [OrderedList] declaration. *)
Definition orderedListAttrs (tok : Token) : M (option Attrs) :=
  retM (Some [("order",
               JS.VNum (JS.Number (JS.or (getAttr tok "order") (JS.VNum (JS.Int 1)))))]).

(** [attrs] of the [Heading] declaration. *)
Definition headingAttrs (tok : Token) : M (option Attrs) :=
  retM (Some [("level", JS.VStr (JS.slice (tok_tag tok) 1 None))]).

(** [function trimTrailingNewline(str)] *)
Definition trimTrailingNewline (str : string) : string :=
  if bool_decide (JS.charAt str (JS.length str - 1) = JS.LF)
  then JS.slice str 0 (Some (JS.length str - 1))
  else str.

(** [function parseCodeBlock(state, tok)] *)
Definition parseCodeBlock (this : NodeType) (tok : Token) : M unit :=
  openNode this None ;;
  addText (trimTrailingNewline (tok_content tok)) ;;
  closeNode ;;
  retM tt.

Definition parseHorizontalRule (this : NodeType) (tok : Token) : M unit :=
  addNode this (Some [("markup", JS.VStr (tok_markup tok))]) None ;;
  retM tt.

(** [tok.children[0] && tok.children[0].content || null] *)
Definition imageAlt (children : list Token) : JS.Value :=
  match children with
  | [] => JS.VNull
  | child :: _ => JS.or (JS.VStr (tok_content child)) JS.VNull
  end.

Definition parseImage (this : NodeType) (tok : Token) : M unit :=
  match tok_children tok with
  | None => throwM (TypeError "tok.children is null")
  | Some children =>
      addNode this (Some [("src", getAttr tok "src");
                          ("title", JS.or (getAttr tok "title") JS.VNull);
                          ("alt", imageAlt children)]) None ;;
      retM tt
  end.

Definition parseHardBreak (this : NodeType) (tok : Token) : M unit :=
  addNode this None None ;;
  retM tt.

(** [attrs] of the [LinkMark] declaration. *)
Definition linkAttrs (tok : Token) : M (option Attrs) :=
  retM (Some [("href", getAttr tok "href");
              ("title", JS.or (getAttr tok "title") JS.VNull)]).

Definition parseCodeInline (this : MarkType) (tok : Token) : M unit :=
  openMark (create this None) ;;
  addText (tok_content tok) ;;
  closeMark this.

(** The [register("parseMarkdown", ...)] calls, in the order of the file. *)
Definition paragraphSpec : MarkdownParseSpec :=
  mkSpec "paragraph" (ParseString "block") (AttrsObject None).
Definition orderedListSpec : MarkdownParseSpec :=
  mkSpec "ordered_list" (ParseString "block") (AttrsFunction orderedListAttrs).
Definition headingSpec : MarkdownParseSpec :=
  mkSpec "heading" (ParseString "block") (AttrsFunction headingAttrs).
Definition codeBlockSpec : MarkdownParseSpec :=
  mkSpec "code_block" (ParseFunction parseCodeBlock) (AttrsObject None).
Definition fenceSpec : MarkdownParseSpec :=
  mkSpec "fence" (ParseFunction parseCodeBlock) (AttrsObject None).
Definition emSpec : MarkdownParseSpec :=
  mkSpec "em" (ParseString "mark") (AttrsObject None).
Definition linkSpec : MarkdownParseSpec :=
  mkSpec "link" (ParseString "mark") (AttrsFunction linkAttrs).

Definition declarations : list (MarkdownParseSpec * SchemaItem) :=
  [ (mkSpec "blockquote" (ParseString "block") (AttrsObject None), BlockQuote);
    (paragraphSpec, Paragraph);
    (mkSpec "list_item" (ParseString "block") (AttrsObject None), ListItem);
    (mkSpec "bullet_list" (ParseString "block") (AttrsObject None), BulletList);
    (orderedListSpec, OrderedList);
    (headingSpec, Heading);
    (codeBlockSpec, CodeBlock);
    (fenceSpec, CodeBlock);
    (mkSpec "hr" (ParseFunction parseHorizontalRule) (AttrsObject None), HorizontalRule);
    (mkSpec "image" (ParseFunction parseImage) (AttrsObject None), Image);
    (mkSpec "hardbreak" (ParseFunction parseHardBreak) (AttrsObject None), HardBreak);
    (emSpec, EmMark);
    (mkSpec "strong" (ParseString "mark") (AttrsObject None), StrongMark);
    (linkSpec, LinkMark);
    (mkSpec "code_inline" (ParseFunction parseCodeInline) (AttrsObject None), CodeMark) ].

(** A schema with these declarations and nothing cached yet. *)
Definition Doc : NodeType := Item "Doc".
Definition defaultSchema : Schema := mkSchema Doc declarations None.

(** A token of the given type with every other field empty, and tokens
    with one field set, for the examples below. *)
Definition tk (type : string) : Token := mkToken type "" None "" "" None.
Definition textTok (content : string) : Token := mkToken "text" "" None content "" None.
Definition inlineTok (children : list Token) : Token :=
  mkToken "inline" "" None "" "" (Some children).


(** The table of a schema whose declarations are all accepted. *)
Definition tokensOf (schema : Schema) : gmap string Handler :=
  match summarizeTokens schema with
  | inr tokens => tokens
  | inl _ => ∅
  end.

(** A state with an open paragraph and an active emphasis mark. *)
Definition paragraphUnderEm : State :=
  mkState [mkFrame Paragraph None [Text "a" []]; mkFrame Doc None []]
          [create EmMark None].

(** ** Notions the statements below use *)

(** The [marks] of a node. *)
Definition nodeMarks (node : Node) : list Mark :=
  match node with
  | Text _ marks => marks
  | Elem _ _ _ marks => marks
  end.

(** The node that a frame stands for once nothing more is added to it:
    its type, its attributes and its children, without marks. *)
Definition frameNode (f : Frame) : Node :=
  Elem (type f) (attrs f) (Some (content f)) noMarks.

(** The tree that a stack of open frames stands for: the node of each
    frame is the last child of the frame below it. *)
Fixpoint collapse (f : Frame) (below : list Frame) : Node :=
  match below with
  | [] => frameNode f
  | g :: below' =>
      collapse (mkFrame (type g) (attrs g) (content g ++ [frameNode f])) below'
  end.

(** The keys of the table that [registerTokens] assigns for a
    declaration: two for ["block"] and ["mark"], one otherwise. *)
Definition writtenKeys (info : MarkdownParseSpec) : list string :=
  if parse_eq (parse info) "block" || parse_eq (parse info) "mark"
  then [token info +:+ "_open"; token info +:+ "_close"]
  else [token info].

(** The [parse] values that [registerTokens] accepts. *)
Definition recognized (p : Parse) : bool :=
  match p with
  | ParseString s => bool_decide (s = "block") || bool_decide (s = "mark")
  | ParseFunction _ => true
  | ParseAbsent => false
  end.

(** * Properties *)

(** ** Strings *)

Lemma append_nil_l (s : string) : "" +:+ s = s.
Proof. reflexivity. Qed.

Lemma append_cons (c : ascii) (a s : string) : String c a +:+ s = String c (a +:+ s).
Proof. reflexivity. Qed.

Lemma length_append (t u : string) :
  String.length (t +:+ u) = (String.length t + String.length u)%nat.
Proof.
  induction t as [|c t IH]; [reflexivity|].
  rewrite append_cons. cbn [String.length Nat.add]. now rewrite IH.
Qed.

Lemma substring_full (s : string) : substring 0 (String.length s) s = s.
Proof. induction s as [|c s IH]; [reflexivity|]. cbn [String.length substring]. now rewrite IH. Qed.

Lemma substring_prefix (t u : string) : substring 0 (String.length t) (t +:+ u) = t.
Proof.
  induction t as [|c t IH]; [now destruct u|].
  rewrite append_cons. cbn [String.length substring]. now rewrite IH.
Qed.

Lemma substring_skip (t u : string) (m : nat) :
  substring (String.length t) m (t +:+ u) = substring 0 m u.
Proof.
  induction t as [|c t IH]; [reflexivity|].
  rewrite append_cons. cbn [String.length substring]. exact IH.
Qed.

(** A string is empty or ends with a character. *)
Lemma string_snoc_cases (s : string) : s = "" \/ exists t c, s = t +:+ String c "".
Proof.
  induction s as [|c s [->|(t & d & ->)]]; [now left|right..].
  - now exists "", c.
  - now exists (String c t), d.
Qed.

Lemma charAt_last (t : string) (c : ascii) :
  JS.charAt (t +:+ String c "") (JS.length (t +:+ String c "") - 1) = String c "".
Proof.
  unfold JS.charAt, JS.length. rewrite length_append. cbn [String.length].
  replace (Z.of_nat (String.length t + 1) - 1) with (Z.of_nat (String.length t)) by lia.
  rewrite (proj2 (Z.ltb_ge _ _)) by lia. rewrite (proj2 (Z.leb_gt _ _)) by lia.
  cbn [orb]. rewrite Nat2Z.id, substring_skip. reflexivity.
Qed.

Lemma slice_init (t : string) (c : ascii) :
  JS.slice (t +:+ String c "") 0 (Some (JS.length (t +:+ String c "") - 1)) = t.
Proof.
  unfold JS.slice, JS.clamp, JS.length. rewrite length_append. cbn [String.length].
  replace (Z.of_nat (String.length t + 1) - 1) with (Z.of_nat (String.length t)) by lia.
  rewrite Z.ltb_irrefl. rewrite (proj2 (Z.ltb_ge _ _)) by lia.
  rewrite Z.min_l by lia. rewrite Z.min_l by lia.
  rewrite Z.sub_0_r, Z.max_l by lia. rewrite Nat2Z.id. cbn [Z.to_nat].
  apply substring_prefix.
Qed.

Lemma slice_tail (c : ascii) (rest : string) : JS.slice (String c rest) 1 None = rest.
Proof.
  unfold JS.slice, JS.clamp, JS.length. cbn [String.length].
  rewrite (proj2 (Z.ltb_ge 1 0)) by lia. rewrite Z.min_l by lia.
  replace (Z.of_nat (S (String.length rest)) - 1) with (Z.of_nat (String.length rest)) by lia.
  rewrite Z.max_l by lia. rewrite Nat2Z.id.
  change (Z.to_nat 1) with 1%nat. cbn [substring]. apply substring_full.
Qed.

(** ** The monad *)

Lemma bindM_inr {A B} (m : M A) (k : A -> M B) st a st' :
  m st = inr (a, st') -> bindM m k st = k a st'.
Proof. intros H. unfold bindM. now rewrite H. Qed.

Lemma bindM_inl {A B} (m : M A) (k : A -> M B) st e :
  m st = inl e -> bindM m k st = inl e.
Proof. intros H. unfold bindM. now rewrite H. Qed.

(** ** [closeNode] and the unwinding loop *)

Lemma reset_marks (m : list Mark) :
  (if negb (List.length m =? 0)%nat then noMarks else m) = noMarks.
Proof. now destruct m. Qed.

Lemma closeNode_cons info below m :
  closeNode (mkState (info :: below) m)
  = inr (frameNode info, mkState (pushOnto (frameNode info) below) noMarks).
Proof.
  unfold closeNode. cbn [stack marks]. rewrite reset_marks. reflexivity.
Qed.

Lemma closeNode_empty m :
  closeNode (mkState [] m) = inl (TypeError "info is undefined").
Proof. reflexivity. Qed.

Lemma closeAll_collapse below :
  forall f m rounds,
    (List.length below <= rounds)%nat ->
    closeAll rounds (mkState (f :: below) m)
    = inr (collapse f below, mkState [] noMarks).
Proof.
  induction below as [|g below IH]; intros f m rounds Hle.
  - destruct rounds; cbn [closeAll]; rewrite closeNode_cons; reflexivity.
  - destruct rounds as [|rounds]; [cbn in Hle; lia|].
    cbn [closeAll]. rewrite closeNode_cons. cbn [pushOnto stack List.length Nat.eqb negb].
    rewrite IH by (cbn in Hle; lia). reflexivity.
Qed.

(** ** [parseTokens] *)

Section ParseTokens.

Variable tokenTypes : gmap string Handler.

Lemma parseToken_inline tok toks :
  tokenTypes !! tok_type tok = Some Inline ->
  tok_children tok = Some toks ->
  parseToken tokenTypes tok = parseTokens tokenTypes toks.
Proof.
  destruct tok as [ty tg at_ ct mk ch]. cbn [tok_type tok_children].
  intros Hh ->. cbn [parseToken]. rewrite Hh.
  induction toks as [|t toks IH]; [reflexivity|].
  cbn [parseTokens]. now rewrite <- IH.
Qed.

Lemma parseToken_call tok f :
  tokenTypes !! tok_type tok = Some (Call f) ->
  parseToken tokenTypes tok = f tok.
Proof.
  destruct tok as [ty tg at_ ct mk ch]. cbn [tok_type].
  intros Hh. cbn [parseToken]. now rewrite Hh.
Qed.

Lemma parseToken_unsupported tok st :
  tokenTypes !! tok_type tok = None ->
  parseToken tokenTypes tok st = inl (unsupported (tok_type tok)).
Proof.
  destruct tok as [ty tg at_ ct mk ch]. cbn [tok_type].
  intros Hh. cbn [parseToken]. now rewrite Hh.
Qed.

Lemma parseTokens_app before after st :
  parseTokens tokenTypes (before ++ after) st
  = bindM (parseTokens tokenTypes before) (fun _ => parseTokens tokenTypes after) st.
Proof.
  revert st. induction before as [|t before IH]; intros st; [reflexivity|].
  cbn [app parseTokens]. unfold bindM.
  destruct (parseToken tokenTypes t st) as [e|[[] st1]]; [reflexivity|].
  rewrite IH. reflexivity.
Qed.

Lemma parseTokens_fails_at before tok after st st' e :
  parseTokens tokenTypes before st = inr (tt, st') ->
  parseToken tokenTypes tok st' = inl e ->
  parseTokens tokenTypes (before ++ tok :: after) st = inl e.
Proof.
  intros Hb Ht. rewrite parseTokens_app. rewrite (bindM_inr _ _ _ _ _ Hb).
  cbn [parseTokens]. now apply bindM_inl.
Qed.

End ParseTokens.

Lemma fromMarkdown_run schema tokenTypes schema' tokens :
  tokenTypeInfo schema = inr (tokenTypes, schema') ->
  fst (fromMarkdown schema tokens)
  = match parseTokens tokenTypes tokens (initialState schema') with
    | inl e => inl e
    | inr (_, st) =>
        match closeAll (List.length (stack st)) st with
        | inl e => inl e
        | inr (doc, _) => inr doc
        end
    end.
Proof.
  intros Hinfo. unfold fromMarkdown. rewrite Hinfo. cbn [fst].
  unfold bindM, get.
  destruct (parseTokens tokenTypes tokens (initialState schema')) as [e|[[] st]];
    reflexivity.
Qed.

(** ** Closing a node (C1) *)

(** C1, as the claim states it, fails: [closeNode] called with an active
    emphasis mark builds the paragraph with no mark at all, not with the
    set that was active before the reset. *)
Lemma closeNode_drops_active_marks :
  marks paragraphUnderEm <> noMarks
  /\ exists node st',
       closeNode paragraphUnderEm = inr (node, st')
       /\ nodeMarks node = noMarks
       /\ nodeMarks node <> marks paragraphUnderEm.
Proof.
  split; [discriminate|].
  eexists _, _. split; [unfold paragraphUnderEm; apply closeNode_cons|].
  split; [reflexivity|discriminate].
Qed.

(** C1, amended: for every call to [closeNode] on a non-empty stack,
    whatever the active Mark Set is, the reset comes first: the node of
    the popped frame is constructed with the empty Mark Set, it is appended
    to the frame below when there is one, and the active Mark Set is empty
    afterwards. *)
Theorem closeNode_constructs_after_reset info below m :
  exists node st',
    closeNode (mkState (info :: below) m) = inr (node, st')
    /\ node = createAutoFill (type info) (attrs info) (Some (content info)) noMarks
    /\ nodeMarks node = noMarks
    /\ marks st' = noMarks
    /\ stack st' = pushOnto node below.
Proof.
  eexists _, _. split; [apply closeNode_cons|]. repeat split.
Qed.

(** ** The forced unwind of the driver (C2) *)

(** C2, as the claim states it, fails: a sequence with one close token too
    many is consumed to its end, the stack is then empty, and the driver
    throws instead of returning a document. *)
Lemma fromMarkdown_surplus_close_throws :
  tokenTypeInfo defaultSchema
  = inr (tokensOf defaultSchema, mkSchema Doc declarations (Some (tokensOf defaultSchema)))
  /\ parseTokens (tokensOf defaultSchema) [tk "paragraph_close"]
       (initialState defaultSchema)
     = inr (tt, mkState [] noMarks)
  /\ fst (fromMarkdown defaultSchema [tk "paragraph_close"])
     = inl (TypeError "info is undefined").
Proof. split; [reflexivity|]. split; vm_compute; reflexivity. Qed.

(** C2, amended: for every token sequence that is consumed to its end and
    leaves at least one frame on the stack, the driver closes the top frame
    until the stack is empty, and the last node this produces is the
    document it returns: every frame has become a node appended after the
    children of the frame below it. In particular, with one frame left
    open above the root, the root node ends with the node of that frame,
    whose children are the accumulated ones, in their order. *)
Theorem fromMarkdown_unwinds schema tokenTypes schema' tokens st f below :
  tokenTypeInfo schema = inr (tokenTypes, schema') ->
  parseTokens tokenTypes tokens (initialState schema') = inr (tt, st) ->
  stack st = f :: below ->
  closeAll (List.length (stack st)) st = inr (collapse f below, mkState [] noMarks)
  /\ fst (fromMarkdown schema tokens) = inr (collapse f below)
  /\ (forall root, below = [root] ->
      fst (fromMarkdown schema tokens)
      = inr (Elem (type root) (attrs root)
               (Some (content root
                      ++ [Elem (type f) (attrs f) (Some (content f)) noMarks]))
               noMarks)).
Proof.
  intros Hinfo Hparse Hstack.
  assert (Hclose : closeAll (List.length (stack st)) st
                   = inr (collapse f below, mkState [] noMarks)).
  { destruct st as [stk m]. cbn [stack] in *. subst stk.
    apply closeAll_collapse. cbn. lia. }
  assert (Hdoc : fst (fromMarkdown schema tokens) = inr (collapse f below)).
  { rewrite (fromMarkdown_run _ _ _ _ Hinfo), Hparse, Hclose. reflexivity. }
  split; [exact Hclose|]. split; [exact Hdoc|].
  intros root ->. exact Hdoc.
Qed.

Lemma fromMarkdown_unwinds_witness :
  fst (fromMarkdown defaultSchema
         [tk "paragraph_open"; textTok "x"; tk "hardbreak"; textTok "y"])
  = inr (Elem Doc None
           (Some [Elem Paragraph None
                    (Some [Text "x" []; Elem HardBreak None None []; Text "y" []])
                    []])
           []).
Proof.
  refine (proj2 (proj2 (fromMarkdown_unwinds defaultSchema (tokensOf defaultSchema)
            (mkSchema Doc declarations (Some (tokensOf defaultSchema)))
            [tk "paragraph_open"; textTok "x"; tk "hardbreak"; textTok "y"]
            (mkState [mkFrame Paragraph None
                        [Text "x" []; Elem HardBreak None None []; Text "y" []];
                      mkFrame Doc None []] [])
            (mkFrame Paragraph None
               [Text "x" []; Elem HardBreak None None []; Text "y" []])
            [mkFrame Doc None []] _ _ _)) (mkFrame Doc None []) eq_refl).
  - reflexivity.
  - vm_compute; reflexivity.
  - reflexivity.
Defined.

(** ** Tokens without a handler (C3) *)

Lemma append_cancel_r (suffix : string) :
  forall a b : string, a +:+ suffix = b +:+ suffix -> a = b.
Proof.
  assert (Hlen : forall a b : string,
             a +:+ suffix = b +:+ suffix -> String.length a = String.length b).
  { intros a b H. apply (f_equal String.length) in H.
    rewrite !length_append in H. lia. }
  induction a as [|c a IH]; intros [|d b] H; try reflexivity;
    try (apply Hlen in H; discriminate H).
  rewrite !append_cons in H. injection H as -> H. f_equal. now apply IH.
Qed.

Lemma unsupported_message (type : string) :
  unsupported type
  = Error_ ("Token type `" +:+ type +:+ "` not supported by Markdown parser").
Proof. reflexivity. Qed.

(** C3: a token whose type has no entry in the table makes [parseTokens]
    throw the [Error] whose message is ["Token type `T` not supported by
    Markdown parser"], with the type [T] of the token between the quotes,
    wherever the token stands: after any tokens that were consumed,
    whatever follows it, at the top level or among the children of an
    inline token; [fromMarkdown] then returns that error and no node. The
    message is that of no other token type. *)
Theorem unsupported_token_aborts tokenTypes tok :
  tokenTypes !! tok_type tok = None ->
  (forall st,
      parseToken tokenTypes tok st
      = inl (Error_ ("Token type `" +:+ tok_type tok
                     +:+ "` not supported by Markdown parser")))
  /\ (forall before after st st',
        parseTokens tokenTypes before st = inr (tt, st') ->
        parseTokens tokenTypes (before ++ tok :: after) st
        = inl (Error_ ("Token type `" +:+ tok_type tok
                       +:+ "` not supported by Markdown parser")))
  /\ (forall parent before after st st',
        tokenTypes !! tok_type parent = Some Inline ->
        tok_children parent = Some (before ++ tok :: after) ->
        parseTokens tokenTypes before st = inr (tt, st') ->
        parseToken tokenTypes parent st
        = inl (Error_ ("Token type `" +:+ tok_type tok
                       +:+ "` not supported by Markdown parser")))
  /\ (forall schema schema' before after st',
        tokenTypeInfo schema = inr (tokenTypes, schema') ->
        parseTokens tokenTypes before (initialState schema') = inr (tt, st') ->
        fst (fromMarkdown schema (before ++ tok :: after))
        = inl (Error_ ("Token type `" +:+ tok_type tok
                       +:+ "` not supported by Markdown parser")))
  /\ (forall type',
        Error_ ("Token type `" +:+ type' +:+ "` not supported by Markdown parser")
        = Error_ ("Token type `" +:+ tok_type tok
                  +:+ "` not supported by Markdown parser") ->
        type' = tok_type tok).
Proof.
  intros Hnone. rewrite <- unsupported_message.
  assert (Htok : forall st, parseToken tokenTypes tok st = inl (unsupported (tok_type tok)))
    by (intros st; now apply parseToken_unsupported).
  split; [exact Htok|]. split; [|split; [|split]].
  - intros before after st st' Hb. eapply parseTokens_fails_at; eauto.
  - intros parent before after st st' Hinl Hch Hb.
    rewrite (parseToken_inline _ _ _ Hinl Hch).
    eapply parseTokens_fails_at; eauto.
  - intros schema schema' before after st' Hinfo Hb.
    rewrite (fromMarkdown_run _ _ _ _ Hinfo).
    now rewrite (parseTokens_fails_at _ _ _ after _ _ _ Hb (Htok st')).
  - intros type' H. rewrite unsupported_message in H. injection H as H.
    rewrite !append_nil_l in H. now apply append_cancel_r in H.
Qed.

Lemma unsupported_token_aborts_witness :
  fst (fromMarkdown defaultSchema
         ([tk "paragraph_open"; textTok "x"] ++ tk "bogus" :: [tk "paragraph_close"]))
  = inl (Error_ "Token type `bogus` not supported by Markdown parser").
Proof.
  refine (proj1 (proj2 (proj2 (proj2 (unsupported_token_aborts (tokensOf defaultSchema)
            (tk "bogus") _)))) defaultSchema
            (mkSchema Doc declarations (Some (tokensOf defaultSchema)))
            [tk "paragraph_open"; textTok "x"] [tk "paragraph_close"]
            (mkState [mkFrame Paragraph None [Text "x" []]; mkFrame Doc None []] [])
            _ _).
  - reflexivity.
  - reflexivity.
  - vm_compute; reflexivity.
Defined.

(** ** Merging text runs (C4) *)

Lemma sameSet_spec (a b : list Mark) :
  sameSet a b = true <-> (forall m, m ∈ a <-> m ∈ b).
Proof.
  unfold sameSet. rewrite andb_true_iff, !forallb_forall. split.
  - intros [Hab Hba] m. split; intros Hin.
    + apply list_elem_of_In, Hab in Hin. now apply bool_decide_eq_true in Hin.
    + apply list_elem_of_In, Hba in Hin. now apply bool_decide_eq_true in Hin.
  - intros H. split; intros m Hin; apply bool_decide_eq_true, H;
      now apply list_elem_of_In.
Qed.

Lemma sameSet_refl (a : list Mark) : sameSet a a = true.
Proof. now apply sameSet_spec. Qed.

Lemma sameSet_false_trans (a b c : list Mark) :
  sameSet a b = true -> sameSet b c = false -> sameSet a c = false.
Proof.
  intros Hab Hbc. destruct (sameSet a c) eqn:Hac; [|reflexivity].
  rewrite <- Hbc. symmetry. apply sameSet_spec. intros m.
  rewrite <- (proj1 (sameSet_spec a b) Hab m).
  apply (proj1 (sameSet_spec a c) Hac).
Qed.

Lemma insert_last {A} (c : list A) (x y : A) :
  <[(List.length (c ++ [x]) - 1)%nat := y]> (c ++ [x]) = c ++ [y].
Proof.
  rewrite length_app. cbn [List.length].
  replace (List.length c + 1 - 1)%nat with (List.length c + 0)%nat by lia.
  now rewrite insert_app_r.
Qed.

Lemma appendOrMerge_nil node : appendOrMerge [] node = [node].
Proof. reflexivity. Qed.

Lemma appendOrMerge_snoc c l node :
  appendOrMerge (c ++ [l]) node
  = match maybeMerge l node with
    | Some merged => c ++ [merged]
    | None => c ++ [l; node]
    end.
Proof.
  unfold appendOrMerge. rewrite last_snoc.
  destruct (maybeMerge l node); [apply insert_last|].
  now rewrite <- app_assoc.
Qed.

Lemma appendOrMerge_fresh nodes node :
  match last nodes with Some l => maybeMerge l node | None => None end = None ->
  appendOrMerge nodes node = nodes ++ [node].
Proof.
  unfold appendOrMerge. destruct (last nodes) as [l|]; [|reflexivity].
  now intros ->.
Qed.

Lemma string_app_assoc (a b c : string) : (a +:+ b) +:+ c = a +:+ (b +:+ c).
Proof.
  induction a as [|ch a IH]; [reflexivity|].
  rewrite !append_cons. now f_equal.
Qed.

Lemma appendOrMerge_twice nodes a b m :
  appendOrMerge (appendOrMerge nodes (Text a m)) (Text b m)
  = appendOrMerge nodes (Text (a +:+ b) m).
Proof.
  destruct nodes as [|n nodes _] using rev_ind.
  - rewrite !appendOrMerge_nil. rewrite (appendOrMerge_snoc [] (Text a m)).
    cbn [maybeMerge]. now rewrite sameSet_refl.
  - rewrite !appendOrMerge_snoc. destruct n as [x m0|ty at_ ct mk].
    + cbn [maybeMerge]. destruct (sameSet m0 m) eqn:Hs.
      * rewrite appendOrMerge_snoc. cbn [maybeMerge]. rewrite Hs.
        now rewrite string_app_assoc.
      * change (nodes ++ [Text x m0; Text a m])
          with (nodes ++ [Text x m0] ++ [Text a m]).
        rewrite app_assoc, appendOrMerge_snoc. cbn [maybeMerge].
        rewrite sameSet_refl. now rewrite <- app_assoc.
    + cbn [maybeMerge].
      change (nodes ++ [Elem ty at_ ct mk; Text a m])
        with (nodes ++ [Elem ty at_ ct mk] ++ [Text a m]).
      rewrite app_assoc, appendOrMerge_snoc. cbn [maybeMerge].
      rewrite sameSet_refl. now rewrite <- app_assoc.
Qed.

(** After a text is added, the top frame ends with a run that ends with
    that text. *)
Lemma appendOrMerge_ends nodes a m :
  exists c x m0,
    appendOrMerge nodes (Text a m) = c ++ [Text (x +:+ a) m0]
    /\ sameSet m0 m = true.
Proof.
  destruct nodes as [|n nodes _] using rev_ind.
  - exists [], "", m. split; [reflexivity|apply sameSet_refl].
  - rewrite appendOrMerge_snoc. destruct n as [x m0|ty at_ ct mk].
    + cbn [maybeMerge]. destruct (sameSet m0 m) eqn:Hs.
      * now exists nodes, x, m0.
      * exists (nodes ++ [Text x m0]), "", m. rewrite <- app_assoc.
        split; [reflexivity|apply sameSet_refl].
    + exists (nodes ++ [Elem ty at_ ct mk]), "", m. rewrite <- app_assoc.
      split; [reflexivity|apply sameSet_refl].
Qed.

Lemma addText_twice a b st :
  bindM (addText a) (fun _ => addText b) st = addText (a +:+ b) st.
Proof.
  destruct st as [[|f below] m]; [reflexivity|].
  unfold bindM, addText. cbn [stack marks content type attrs].
  now rewrite appendOrMerge_twice.
Qed.

Lemma parseTokens_text tokenTypes tok :
  tokenTypes !! "text" = Some (Call textHandler) ->
  tok_type tok = "text" ->
  parseToken tokenTypes tok = addText (tok_content tok).
Proof.
  intros Hh Hty. apply (parseToken_call tokenTypes tok textHandler). now rewrite Hty.
Qed.

Lemma bindM_retM_r {A} (m : M A) st : bindM m retM st = m st.
Proof. unfold bindM, retM. now destruct (m st) as [e|[a st']]. Qed.

Lemma parseTokens_one tokenTypes tok st :
  parseTokens tokenTypes [tok] st = parseToken tokenTypes tok st.
Proof.
  cbn [parseTokens]. unfold bindM, retM.
  now destruct (parseToken tokenTypes tok st) as [e|[[] st']].
Qed.

(** C4: with the builtin handler under ["text"], two consecutive text
    tokens consumed under one Mark Set have the effect of one [addText] of
    the concatenated contents; in a top frame that does not already end
    with a run of that style this adds exactly one run, which holds the
    concatenation. When the Mark Set has changed to a different one between
    the two tokens, the second text becomes a new sibling right after the
    run that ends with the first. *)
Theorem text_tokens_merge tokenTypes t1 t2 :
  tokenTypes !! "text" = Some (Call textHandler) ->
  tok_type t1 = "text" ->
  tok_type t2 = "text" ->
  (forall st,
      parseTokens tokenTypes [t1; t2] st
      = addText (tok_content t1 +:+ tok_content t2) st)
  /\ (forall f below m,
        match last (content f) with
        | Some l => maybeMerge l (Text (tok_content t1) m)
        | None => None
        end = None ->
        parseTokens tokenTypes [t1; t2] (mkState (f :: below) m)
        = inr (tt, mkState
                     (mkFrame (type f) (attrs f)
                        (content f ++ [Text (tok_content t1 +:+ tok_content t2) m])
                      :: below) m))
  /\ (forall f below m1 m2,
        sameSet m1 m2 = false ->
        exists c x m0,
          parseTokens tokenTypes [t1] (mkState (f :: below) m1)
          = inr (tt, mkState
                       (mkFrame (type f) (attrs f)
                          (c ++ [Text (x +:+ tok_content t1) m0]) :: below) m1)
          /\ parseTokens tokenTypes [t2]
               (mkState
                  (mkFrame (type f) (attrs f)
                     (c ++ [Text (x +:+ tok_content t1) m0]) :: below) m2)
             = inr (tt, mkState
                          (mkFrame (type f) (attrs f)
                             (c ++ [Text (x +:+ tok_content t1) m0;
                                    Text (tok_content t2) m2]) :: below) m2)).
Proof.
  intros Hh H1 H2.
  assert (Hpair : forall st,
             parseTokens tokenTypes [t1; t2] st
             = addText (tok_content t1 +:+ tok_content t2) st).
  { intros st. rewrite <- addText_twice. cbn [parseTokens].
    rewrite (parseTokens_text _ _ Hh H1), (parseTokens_text _ _ Hh H2).
    unfold bindM. destruct (addText (tok_content t1) st) as [e|[[] st1]]; [reflexivity|].
    now destruct (addText (tok_content t2) st1) as [e|[[] st2]]. }
  split; [exact Hpair|]. split.
  - intros f below m Hfresh. rewrite Hpair. unfold addText.
    cbn [stack marks]. rewrite appendOrMerge_fresh; [reflexivity|].
    destruct (last (content f)) as [l|]; [|reflexivity].
    destruct l as [x m0|]; [|reflexivity]. cbn [maybeMerge] in *.
    now destruct (sameSet m0 m).
  - intros f below m1 m2 Hdiff.
    destruct (appendOrMerge_ends (content f) (tok_content t1) m1)
      as (c & x & m0 & Hc & Hs).
    exists c, x, m0. rewrite !parseTokens_one.
    rewrite (parseTokens_text _ _ Hh H1), (parseTokens_text _ _ Hh H2).
    unfold addText. cbn [stack marks content type attrs]. rewrite Hc. split; [reflexivity|].
    rewrite appendOrMerge_snoc. cbn [maybeMerge].
    now rewrite (sameSet_false_trans _ _ _ Hs Hdiff).
Qed.

Lemma text_tokens_merge_witness :
  parseTokens (tokensOf defaultSchema) [textTok "a"; textTok "b"]
    (mkState [mkFrame Paragraph None []; mkFrame Doc None []] [])
  = inr (tt, mkState [mkFrame Paragraph None [Text "ab" []]; mkFrame Doc None []] []).
Proof.
  refine (proj1 (proj2 (text_tokens_merge (tokensOf defaultSchema)
            (textTok "a") (textTok "b") _ _ _))
            (mkFrame Paragraph None []) [mkFrame Doc None []] [] _).
  - reflexivity.
  - reflexivity.
  - reflexivity.
  - reflexivity.
Defined.

(** ** Building the registry (C5, C6, C7) *)

Lemma append_open_close_ne (t : string) : t +:+ "_open" <> t +:+ "_close".
Proof.
  induction t as [|c t IH]; [discriminate|].
  rewrite !append_cons. intros [= H]. now apply IH.
Qed.

Lemma registerAll_app tokens good rest :
  registerAll tokens (good ++ rest)
  = bind (registerAll tokens good) (fun tokens' => registerAll tokens' rest).
Proof.
  revert tokens. induction good as [|[info T] good IH]; intros tokens; [reflexivity|].
  cbn [app registerAll]. unfold bind at 1 3.
  destruct (registerTokens tokens T info) as [e|tokens1]; [reflexivity|apply IH].
Qed.

(** A declaration that [registerTokens] refuses ends the construction of
    the table, and [fromMarkdown] returns the exception without reading a
    token. *)
Lemma registry_build_fails schema good info T rest tokens' e tokens :
  cached_markdownTokens schema = None ->
  registry_parseMarkdown schema = good ++ (info, T) :: rest ->
  registerAll builtinTokens good = inr tokens' ->
  registerTokens tokens' T info = inl e ->
  summarizeTokens schema = inl e
  /\ tokenTypeInfo schema = inl e
  /\ fromMarkdown schema tokens = (inl e, schema).
Proof.
  intros Hcache Hreg Hgood Hbad.
  assert (Hsum : summarizeTokens schema = inl e).
  { unfold summarizeTokens. rewrite Hreg, registerAll_app, Hgood.
    cbn [bind registerAll]. now rewrite Hbad. }
  assert (Hinfo : tokenTypeInfo schema = inl e).
  { unfold tokenTypeInfo. now rewrite Hcache, Hsum. }
  repeat split; try assumption.
  unfold fromMarkdown. now rewrite Hinfo.
Qed.

(** What [registerTokens] does with a [parse] that is neither ["block"],
    nor ["mark"], nor a function: the assertion error when it is absent or
    the empty string, and the [TypeError] of the call of [bind] when it is
    another string. *)
Lemma registerTokens_unrecognized tokens T info :
  parse_eq (parse info) "block" = false ->
  parse_eq (parse info) "mark" = false ->
  (forall f, parse info <> ParseFunction f) ->
  registerTokens tokens T info
  = inl (if parse_truthy (parse info)
         then TypeError "info.parse.bind is not a function"
         else AssertionError "Unrecognized markdown parsing spec: [object Object]").
Proof.
  intros Hb Hm Hf. unfold registerTokens. rewrite Hb, Hm.
  destruct (parse_truthy (parse info)); [|reflexivity].
  destruct (parse info) as [s|f|]; try reflexivity. now destruct (Hf f).
Qed.

(** C5: the declaration [{token: "paragraph", parse: "inline"}] is refused
    when the table is built, but by the [TypeError] that calling
    ["inline".bind] throws, not by the "Unrecognized markdown parsing spec"
    assertion that a declaration without [parse] meets. *)
Theorem registerTokens_unknown_string_TypeError :
  registerTokens builtinTokens Paragraph
    (mkSpec "paragraph" (ParseString "inline") (AttrsObject None))
  = inl (TypeError "info.parse.bind is not a function")
  /\ fromMarkdown
       (mkSchema Doc [(mkSpec "paragraph" (ParseString "inline") (AttrsObject None),
                       Paragraph)] None)
       [tk "paragraph_open"]
     = (inl (TypeError "info.parse.bind is not a function"),
        mkSchema Doc [(mkSpec "paragraph" (ParseString "inline") (AttrsObject None),
                       Paragraph)] None)
  /\ registerTokens builtinTokens Paragraph
       (mkSpec "paragraph" ParseAbsent (AttrsObject None))
     = inl (AssertionError "Unrecognized markdown parsing spec: [object Object]").
Proof. repeat split. Qed.

(** C6: a ["block"] declaration of token name [t] for the node type [T]
    sets the two entries [t_open] and [t_close] of the table and no other.
    The open handler computes the attributes, with the function of the
    declaration run on the live state and the token, or else the static
    value, and pushes an empty frame of type [T] with them. The close
    handler pops the top frame, constructs its node and appends it to the
    children of the frame that is now on top. *)
Theorem block_declaration_handlers tokens T info :
  parse info = ParseString "block" ->
  exists tokens',
    registerTokens tokens T info = inr tokens'
    /\ tokens' !! (token info +:+ "_open") = Some (Call (blockOpen T info))
    /\ tokens' !! (token info +:+ "_close") = Some (Call blockClose)
    /\ (forall name,
          name <> token info +:+ "_open" -> name <> token info +:+ "_close" ->
          tokens' !! name = tokens !! name)
    /\ (forall tok st,
          blockOpen T info tok st
          = match computeAttrs info tok st with
            | inl e => inl e
            | inr (attrs, st') =>
                inr (tt, mkState (mkFrame T attrs [] :: stack st') (marks st'))
            end)
    /\ (forall f tok st,
          spec_attrs info = AttrsFunction f -> computeAttrs info tok st = f tok st)
    /\ (forall a tok st,
          spec_attrs info = AttrsObject a -> computeAttrs info tok st = inr (a, st))
    /\ (forall tok f g below m,
          blockClose tok (mkState (f :: g :: below) m)
          = inr (tt, mkState
                       (mkFrame (type g) (attrs g)
                          (content g
                           ++ [createAutoFill (type f) (attrs f) (Some (content f)) noMarks])
                        :: below) noMarks)).
Proof.
  intros Hparse. eexists. split.
  { unfold registerTokens. rewrite Hparse. cbn [parse_eq].
    rewrite bool_decide_eq_true_2 by reflexivity. reflexivity. }
  split.
  { rewrite lookup_insert_ne by (intros H; symmetry in H; now apply append_open_close_ne in H).
    apply lookup_insert_eq. }
  split; [apply lookup_insert_eq|]. split.
  { intros name Ho Hc. rewrite !lookup_insert_ne by congruence. reflexivity. }
  split; [reflexivity|]. split.
  { intros f tok st Hf. unfold computeAttrs. now rewrite Hf. }
  split.
  { intros a tok st Ha. unfold computeAttrs. now rewrite Ha. }
  intros tok f g below m. unfold blockClose.
  rewrite (bindM_inr _ _ _ _ _ (closeNode_cons f (g :: below) m)). reflexivity.
Qed.

Lemma block_declaration_handlers_witness :
  exists tokens',
    registerTokens builtinTokens Paragraph paragraphSpec = inr tokens'
    /\ tokens' !! "paragraph_open" = Some (Call (blockOpen Paragraph paragraphSpec))
    /\ tokens' !! "paragraph_close" = Some (Call blockClose).
Proof.
  destruct (block_declaration_handlers builtinTokens Paragraph paragraphSpec eq_refl)
    as (tokens' & Hreg & Hopen & Hclose & _).
  exists tokens'. exact (conj Hreg (conj Hopen Hclose)).
Defined.

(** C7: a ["mark"] declaration for the mark type [T] puts under [t_close]
    a handler that replaces the active Mark Set by [T.removeFromSet] of
    it: every mark of type [T] is gone, whatever its attributes, the other
    marks stay, in their order, and a set without a mark of type [T] is
    left as it is. *)
Theorem mark_declaration_close_handler tokens T info :
  parse info = ParseString "mark" ->
  (exists tokens',
      registerTokens tokens T info = inr tokens'
      /\ tokens' !! (token info +:+ "_close") = Some (Call (markClose T)))
  /\ (forall tok st,
        markClose T tok st = inr (tt, mkState (stack st) (removeFromSet T (marks st))))
  /\ (forall set attrs, create T attrs ∉ removeFromSet T set)
  /\ (forall set m, m ∈ removeFromSet T set <-> mark_type m <> T /\ m ∈ set)
  /\ (forall set, removeFromSet T set `sublist_of` set)
  /\ (forall set, (forall m, m ∈ set -> mark_type m <> T) -> removeFromSet T set = set).
Proof.
  intros Hparse. split.
  { eexists. split.
    - unfold registerTokens. rewrite Hparse. cbn [parse_eq].
      rewrite bool_decide_eq_false_2 by discriminate.
      rewrite bool_decide_eq_true_2 by reflexivity. reflexivity.
    - apply lookup_insert_eq. }
  split; [reflexivity|]. split.
  { intros set attrs Hin. apply list_elem_of_filter in Hin as [Hne _]. now apply Hne. }
  split; [intros set m; unfold removeFromSet; now rewrite list_elem_of_filter|]. split.
  { intros set. apply sublist_filter. }
  intros set Hall. unfold removeFromSet.
  induction set as [|m set IH]; [reflexivity|].
  rewrite filter_cons. destruct (decide (mark_type m ≠ T)) as [_|Hn].
  - f_equal. apply IH. intros m' Hin. apply Hall. now right.
  - destruct Hn. apply Hall. now left.
Qed.

Lemma mark_declaration_close_handler_witness :
  markClose LinkMark (tk "link_close")
    (mkState [mkFrame Doc None []]
       [create EmMark None;
        create LinkMark (Some [("href", JS.VStr "a"); ("title", JS.VNull)])])
  = inr (tt, mkState [mkFrame Doc None []] [create EmMark None]).
Proof.
  rewrite (proj1 (proj2 (mark_declaration_close_handler builtinTokens LinkMark linkSpec
                           eq_refl))).
  vm_compute. reflexivity.
Defined.

(** ** Attributes of ordered lists (C8) *)

Ltac by_byte c H :=
  destruct c as [[] [] [] [] [] [] [] []];
  try (vm_compute in H; discriminate H); reflexivity.

Lemma isDigit_no_whiteSpace c l :
  JS.isDigit c = true ->
  JS.whiteSpaceLength JS.whiteSpaces (c :: l) = 0%nat
  /\ JS.whiteSpaceLength (map (@rev nat) JS.whiteSpaces) (c :: l) = 0%nat.
Proof. intros H. split; by_byte c H. Qed.

Lemma isDigit_no_prefix c :
  JS.isDigit c = true ->
  JS.radixOf c = None /\ Ascii.eqb c "+" = false /\ Ascii.eqb c "-" = false
  /\ Ascii.eqb c "I" = false.
Proof. intros H. repeat split; by_byte c H. Qed.

Lemma trimStart_digit seqs rounds c l :
  JS.whiteSpaceLength seqs (c :: l) = 0%nat ->
  JS.trimStart seqs rounds (c :: l) = c :: l.
Proof. intros H. destruct rounds; [reflexivity|]. cbn [JS.trimStart]. now rewrite H. Qed.

Lemma trim_digits l :
  forallb JS.isDigit l = true -> JS.trim l = l.
Proof.
  intros H. destruct l as [|c l]; [reflexivity|]. unfold JS.trim.
  assert (Hc : JS.isDigit c = true) by (cbn in H; now apply andb_true_iff in H as [H _]).
  rewrite (trimStart_digit _ _ _ _ (proj1 (isDigit_no_whiteSpace c l Hc))).
  destruct (rev (c :: l)) as [|d r] eqn:Hrev.
  - apply (f_equal (@rev ascii)) in Hrev. now rewrite rev_involutive in Hrev.
  - assert (Hd : JS.isDigit d = true).
    { apply (proj1 (forallb_forall _ _) H). apply in_rev. rewrite Hrev. now left. }
    rewrite (trimStart_digit _ _ _ _ (proj2 (isDigit_no_whiteSpace d r Hd))).
    rewrite <- Hrev. apply rev_involutive.
Qed.

Lemma span_digits l :
  forallb JS.isDigit l = true -> JS.span JS.isDigit l = (l, []).
Proof.
  induction l as [|c l IH]; [reflexivity|]. cbn [forallb JS.span].
  intros H. apply andb_true_iff in H as [-> H]. now rewrite (IH H).
Qed.

Lemma digitsValue_acc_nonneg l :
  forall acc,
    0 <= acc -> forallb JS.isDigit l = true ->
    0 <= fold_left (fun acc c => 10 * acc + (Z.of_nat (nat_of_ascii c) - 48)) l acc.
Proof.
  induction l as [|c l IH]; intros acc Hacc H; [exact Hacc|].
  cbn [forallb fold_left] in *. apply andb_true_iff in H as [Hc H].
  apply IH; [|exact H]. unfold JS.isDigit in Hc.
  apply andb_true_iff in Hc as [Hc _]. apply Nat.leb_le in Hc. lia.
Qed.

Lemma strNumericLiteral_digits c l :
  forallb JS.isDigit (c :: l) = true ->
  JS.strNumericLiteral (c :: l) = Some (JS.LDecimal false (JS.digitsValue (c :: l)) 0).
Proof.
  intros H.
  assert (Hc : JS.isDigit c = true) by (cbn in H; now apply andb_true_iff in H as [H _]).
  destruct (isDigit_no_prefix c Hc) as (_ & Hplus & Hminus & HI).
  unfold JS.strNumericLiteral.
  assert (Hnd : JS.nonDecimalIntegerLiteral (c :: l) = None).
  { destruct l as [|x [|d ds]]; try reflexivity. cbn [JS.nonDecimalIntegerLiteral].
    assert (Hx : JS.isDigit x = true).
    { cbn in H. apply andb_true_iff in H as [_ H]. now apply andb_true_iff in H as [H _]. }
    rewrite (proj1 (isDigit_no_prefix x Hx)). now destruct (Ascii.eqb c "0"). }
  rewrite Hnd, Hplus, Hminus. unfold JS.strUnsignedDecimalLiteral.
  rewrite bool_decide_eq_false_2.
  - now rewrite (span_digits _ H).
  - intros Heq. cbn in Heq. injection Heq as -> _. vm_compute in HI. discriminate HI.
Qed.

Lemma literalValue_integer m :
  0 <= m <= 2 ^ 53 -> JS.literalValue (JS.LDecimal false m 0) = JS.Int m.
Proof.
  intros [Hlo Hhi]. unfold JS.literalValue.
  destruct (m <=? 0) eqn:Hm.
  - apply Z.leb_le in Hm. now replace m with 0 by lia.
  - apply Z.leb_gt in Hm. pose proof (Z.log2_nonneg m) as Hlog.
    rewrite (proj2 (Z.ltb_ge 400 0)) by lia.
    rewrite (proj2 (Z.ltb_ge (0 + Z.log2 m + 1) (-400))) by lia.
    rewrite Z.leb_refl, Z.pow_0_r, Z.mul_1_r. unfold JS.nearestDouble.
    rewrite (proj2 (Z.leb_gt m 0)) by lia.
    rewrite Z.mod_1_r, Z.div_1_r, Z.eqb_refl, (proj2 (Z.leb_le m (2 ^ 53))) by lia.
    reflexivity.
Qed.

Lemma StringToNumber_digits s :
  s <> "" ->
  forallb JS.isDigit (list_ascii_of_string s) = true ->
  JS.digitsValue (list_ascii_of_string s) <= 2 ^ 53 ->
  JS.StringToNumber s = JS.Int (JS.digitsValue (list_ascii_of_string s)).
Proof.
  intros Hne Hdig Hle. unfold JS.StringToNumber, JS.stringNumericLiteral.
  rewrite (trim_digits _ Hdig).
  destruct (list_ascii_of_string s) as [|c l] eqn:Hl.
  - destruct s; [now destruct Hne|discriminate].
  - rewrite (strNumericLiteral_digits _ _ Hdig). apply literalValue_integer.
    split; [|exact Hle]. apply (digitsValue_acc_nonneg _ 0); [lia|exact Hdig].
Qed.

(** The value of a literal is a number: [NaN] is for the strings that are
    no literal. *)
Lemma literalValue_not_NaN lit : JS.literalValue lit <> JS.NaN.
Proof.
  assert (Hz : forall negative, JS.zero negative <> JS.NaN) by (now intros []).
  assert (Hn : forall negative p q, JS.nearestDouble negative p q <> JS.NaN).
  { intros negative p q. unfold JS.nearestDouble, JS.ofBinary.
    repeat case_match; try discriminate; apply Hz. }
  destruct lit as [negative|negative m e|v]; cbn [JS.literalValue];
    [discriminate| |apply Hn].
  repeat case_match; try discriminate; auto.
Qed.

(** [Number] on some strings: signs, fractions, exponents, radix
    prefixes, rounding beyond 2^53, white space, and strings that are no
    literal. *)
Lemma Number_examples :
  JS.Number (JS.VStr "-3") = JS.Int (-3)
  /\ JS.Number (JS.VStr "1.5") = JS.Frac 3 (-1)
  /\ JS.Number (JS.VStr "0.1") = JS.Frac 3602879701896397 (-55)
  /\ JS.Number (JS.VStr "1e3") = JS.Int 1000
  /\ JS.Number (JS.VStr "0x1F") = JS.Int 31
  /\ JS.Number (JS.VStr "9007199254740993") = JS.Int 9007199254740992
  /\ JS.Number (JS.VStr " 12 ") = JS.Int 12
  /\ JS.Number (JS.VStr "-0") = JS.NegZero
  /\ JS.Number (JS.VStr "1e400") = JS.Infinity false
  /\ JS.Number (JS.VStr "") = JS.Int 0
  /\ JS.Number (JS.VStr "12abc") = JS.NaN
  /\ JS.Number (JS.VStr "-0x1F") = JS.NaN
  /\ JS.Number (JS.VStr "abc") = JS.NaN.
Proof. repeat split; vm_compute; reflexivity. Qed.

Lemma blockOpen_orderedList tok st :
  blockOpen OrderedList orderedListSpec tok st
  = inr (tt, mkState
               (mkFrame OrderedList
                  (Some [("order",
                          JS.VNum (JS.Number (JS.or (getAttr tok "order")
                                                 (JS.VNum (JS.Int 1)))))]) []
                :: stack st) (marks st)).
Proof. reflexivity. Qed.

(** C8, as the claim states it, fails: an [ordered_list_open] token whose
    ["order"] attribute is the string ["abc"] opens a frame whose [order]
    is [NaN], not 1. And one whose attribute is the number 0, present and
    numeric, opens a frame whose [order] is 1, not 0. *)
Lemma ordered_list_non_numeric_order_is_NaN :
  tokensOf defaultSchema !! "ordered_list_open"
  = Some (Call (blockOpen OrderedList orderedListSpec))
  /\ parseTokens (tokensOf defaultSchema)
       [mkToken "ordered_list_open" "ol" (Some [("order", JS.VStr "abc")]) "" "" None]
       (initialState defaultSchema)
     = inr (tt, mkState [mkFrame OrderedList (Some [("order", JS.VNum JS.NaN)]) [];
                         mkFrame Doc None []] noMarks)
  /\ JS.VNum JS.NaN <> JS.VNum (JS.Int 1)
  /\ parseTokens (tokensOf defaultSchema)
       [mkToken "ordered_list_open" "ol" (Some [("order", JS.VNum (JS.Int 0))]) "" "" None]
       (initialState defaultSchema)
     = inr (tt, mkState [mkFrame OrderedList (Some [("order", JS.VNum (JS.Int 1))]) [];
                         mkFrame Doc None []] noMarks)
  /\ JS.VNum (JS.Int 1) <> JS.VNum (JS.Int 0).
Proof.
  split; [reflexivity|]. split; [vm_compute; reflexivity|].
  split; [discriminate|]. split; [vm_compute; reflexivity|discriminate].
Qed.

(** C8, amended: the frame that an [ordered_list_open] token opens has
    the attributes [{order: Number(getAttr(tok, "order") || 1)}]. The
    order is 1 when the attribute is absent or falsy (the empty string,
    the number 0). It is the numeric value of the attribute when the
    attribute is truthy and numeric: the number itself, or the value of
    the numeric literal that the string is (a string of decimal digits up
    to 2^53 gives exactly that integer). It is [NaN], not 1, when the
    attribute is a non-empty string that is no numeric literal. *)
Theorem ordered_list_order tok st :
  let opens n :=
    blockOpen OrderedList orderedListSpec tok st
    = inr (tt, mkState (mkFrame OrderedList (Some [("order", JS.VNum n)]) [] :: stack st)
                       (marks st)) in
  tokensOf defaultSchema !! "ordered_list_open"
  = Some (Call (blockOpen OrderedList orderedListSpec))
  /\ opens (JS.Number (JS.or (getAttr tok "order") (JS.VNum (JS.Int 1))))
  /\ (getAttr tok "order" = JS.VUndefined -> opens (JS.Int 1))
  /\ (JS.toBoolean (getAttr tok "order") = false -> opens (JS.Int 1))
  /\ (forall n,
        getAttr tok "order" = JS.VNum n -> JS.toBoolean (JS.VNum n) = true -> opens n)
  /\ (forall s lit,
        getAttr tok "order" = JS.VStr s -> s <> "" ->
        JS.stringNumericLiteral s = Some lit ->
        opens (JS.literalValue lit) /\ JS.literalValue lit <> JS.NaN)
  /\ (forall s,
        getAttr tok "order" = JS.VStr s -> s <> "" ->
        forallb JS.isDigit (list_ascii_of_string s) = true ->
        JS.digitsValue (list_ascii_of_string s) <= 2 ^ 53 ->
        opens (JS.Int (JS.digitsValue (list_ascii_of_string s))))
  /\ (forall s,
        getAttr tok "order" = JS.VStr s -> s <> "" ->
        JS.stringNumericLiteral s = None ->
        opens JS.NaN).
Proof.
  intros opens. subst opens. cbv beta. rewrite blockOpen_orderedList.
  assert (Htruthy : forall s, s <> "" -> JS.toBoolean (JS.VStr s) = true)
    by (intros [|c s] Hne; [now destruct Hne|reflexivity]).
  split; [reflexivity|]. split; [reflexivity|].
  split; [now intros ->|].
  split; [intros H; unfold JS.or; now rewrite H|].
  split; [intros n -> Hn; unfold JS.or; now rewrite Hn|].
  split.
  { intros s lit -> Hne Hlit. unfold JS.or. rewrite (Htruthy s Hne).
    cbn [JS.Number]. unfold JS.StringToNumber. rewrite Hlit.
    split; [reflexivity|apply literalValue_not_NaN]. }
  split.
  { intros s -> Hne Hdig Hle. unfold JS.or. rewrite (Htruthy s Hne).
    cbn [JS.Number]. now rewrite StringToNumber_digits. }
  intros s -> Hne Hlit. unfold JS.or. rewrite (Htruthy s Hne).
  cbn [JS.Number]. unfold JS.StringToNumber. now rewrite Hlit.
Qed.

Lemma ordered_list_order_witness :
  blockOpen OrderedList orderedListSpec
    (mkToken "ordered_list_open" "ol" (Some [("order", JS.VStr "12")]) "" "" None)
    (initialState defaultSchema)
  = inr (tt, mkState [mkFrame OrderedList (Some [("order", JS.VNum (JS.Int 12))]) [];
                      mkFrame Doc None []] noMarks)
  /\ blockOpen OrderedList orderedListSpec (tk "ordered_list_open")
       (initialState defaultSchema)
     = inr (tt, mkState [mkFrame OrderedList (Some [("order", JS.VNum (JS.Int 1))]) [];
                         mkFrame Doc None []] noMarks).
Proof.
  split.
  - refine (proj1 (proj2 (proj2 (proj2 (proj2 (proj2 (proj2 (ordered_list_order
       (mkToken "ordered_list_open" "ol" (Some [("order", JS.VStr "12")]) "" "" None)
       (initialState defaultSchema))))))))
       "12" eq_refl _ eq_refl _).
    + discriminate.
    + vm_compute. discriminate.
  - exact (proj1 (proj2 (proj2 (ordered_list_order (tk "ordered_list_open")
                                  (initialState defaultSchema)))) eq_refl).
Defined.

(** ** Code blocks (C9) *)

Lemma trimTrailingNewline_LF (t : string) : trimTrailingNewline (t +:+ JS.LF) = t.
Proof.
  unfold trimTrailingNewline, JS.LF. rewrite charAt_last.
  rewrite bool_decide_eq_true_2 by reflexivity. apply slice_init.
Qed.

Lemma trimTrailingNewline_other (t : string) (c : ascii) :
  Ascii.eqb c "010" = false ->
  trimTrailingNewline (t +:+ String c "") = t +:+ String c "".
Proof.
  intros Hc. unfold trimTrailingNewline, JS.LF. rewrite charAt_last.
  rewrite bool_decide_eq_false_2; [reflexivity|].
  intros [= ->]. now rewrite Ascii.eqb_refl in Hc.
Qed.

Lemma parseCodeBlock_run this tok st :
  parseCodeBlock this tok st
  = inr (tt, mkState
               (pushOnto
                  (Elem this None
                     (Some [Text (trimTrailingNewline (tok_content tok)) (marks st)])
                     noMarks)
                  (stack st))
               noMarks).
Proof.
  unfold parseCodeBlock, bindM, openNode, addText. cbn [stack marks content type attrs].
  rewrite appendOrMerge_nil, closeNode_cons. reflexivity.
Qed.

(** C9: [trimTrailingNewline] removes one line feed from the end of the
    content, and nothing else: a content that is empty or ends with
    another character is unchanged, one that ends with a line feed loses
    it, one that ends with two keeps one. The handler of [code_block] and
    of [fence] adds the trimmed content as the one text of the code block
    node that it appends to the top frame. *)
Theorem code_block_strips_one_newline :
  (forall t, trimTrailingNewline (t +:+ JS.LF) = t)
  /\ (forall t, trimTrailingNewline (t +:+ JS.LF +:+ JS.LF) = t +:+ JS.LF)
  /\ trimTrailingNewline "" = ""
  /\ (forall t c,
        Ascii.eqb c "010" = false ->
        trimTrailingNewline (t +:+ String c "") = t +:+ String c "")
  /\ (forall this tok f below m,
        parseCodeBlock this tok (mkState (f :: below) m)
        = inr (tt, mkState
                     (mkFrame (type f) (attrs f)
                        (content f
                         ++ [createAutoFill this None
                               (Some [Text (trimTrailingNewline (tok_content tok)) m])
                               noMarks])
                      :: below) noMarks))
  /\ tokensOf defaultSchema !! "code_block" = Some (Call (parseCodeBlock CodeBlock))
  /\ tokensOf defaultSchema !! "fence" = Some (Call (parseCodeBlock CodeBlock)).
Proof.
  split; [apply trimTrailingNewline_LF|]. split.
  { intros t. rewrite <- string_app_assoc. apply trimTrailingNewline_LF. }
  split; [reflexivity|]. split; [apply trimTrailingNewline_other|].
  split; [intros; apply parseCodeBlock_run|]. split; reflexivity.
Qed.

Lemma code_block_strips_one_newline_witness :
  trimTrailingNewline "abc" = "abc".
Proof.
  exact (proj1 (proj2 (proj2 (proj2 code_block_strips_one_newline))) "ab" "c"%char eq_refl).
Defined.

(** ** Headings (C10) *)

(** C10: the frame that a [heading_open] token opens has the attributes
    [{level: tok.tag.slice(1)}]: the tag without its first character, as a
    string; nothing converts it to a number. *)
Theorem heading_level_is_tag_tail :
  tokensOf defaultSchema !! "heading_open" = Some (Call (blockOpen Heading headingSpec))
  /\ (forall tok st,
        blockOpen Heading headingSpec tok st
        = inr (tt, mkState
                     (mkFrame Heading
                        (Some [("level", JS.VStr (JS.slice (tok_tag tok) 1 None))]) []
                      :: stack st) (marks st)))
  /\ (forall c rest, JS.slice (String c rest) 1 None = rest)
  /\ JS.slice "" 1 None = ""
  /\ parseTokens (tokensOf defaultSchema)
       [mkToken "heading_open" "h2" None "" "##" None] (initialState defaultSchema)
     = inr (tt, mkState [mkFrame Heading (Some [("level", JS.VStr "2")]) [];
                         mkFrame Doc None []] noMarks)
  /\ JS.VStr "2" <> JS.VNum (JS.Int 2).
Proof.
  split; [reflexivity|]. split; [reflexivity|]. split; [apply slice_tail|].
  split; [reflexivity|]. split; [vm_compute; reflexivity|discriminate].
Qed.

(** * Further properties of the code *)

(** ** [getAttr] *)

Lemma find_name_app (name : string) (before after : list (string * JS.Value)) v :
  (forall a, a ∈ before -> a.1 <> name) ->
  find (fun a => bool_decide (a.1 = name)) (before ++ (name, v) :: after)
  = Some (name, v).
Proof.
  induction before as [|b before IH]; intros Hne.
  - cbn. now rewrite bool_decide_eq_true_2.
  - cbn [app find]. rewrite bool_decide_eq_false_2 by (apply Hne; now left).
    apply IH. intros a Ha. apply Hne. now right.
Qed.

Lemma find_name_none (name : string) (attrs : list (string * JS.Value)) :
  (forall a, a ∈ attrs -> a.1 <> name) ->
  find (fun a => bool_decide (a.1 = name)) attrs = None.
Proof.
  induction attrs as [|b attrs IH]; intros Hne; [reflexivity|].
  cbn [find]. rewrite bool_decide_eq_false_2 by (apply Hne; now left).
  apply IH. intros a Ha. apply Hne. now right.
Qed.

(** [getAttr] returns the value of the first pair of [tok.attrs] whose
    name is the one asked for, whatever follows that pair, and [undefined]
    when [tok.attrs] is [null] or holds no pair of that name. *)
Theorem getAttr_first_match tok name :
  (tok_attrs tok = None -> getAttr tok name = JS.VUndefined)
  /\ (forall attrs,
        tok_attrs tok = Some attrs ->
        (forall a, a ∈ attrs -> a.1 <> name) ->
        getAttr tok name = JS.VUndefined)
  /\ (forall before v after,
        tok_attrs tok = Some (before ++ (name, v) :: after) ->
        (forall a, a ∈ before -> a.1 <> name) ->
        getAttr tok name = v).
Proof.
  unfold getAttr. split; [now intros ->|]. split.
  - intros attrs -> Hne. now rewrite find_name_none.
  - intros before v after -> Hne. now rewrite find_name_app.
Qed.

Lemma getAttr_first_match_witness :
  getAttr (mkToken "image" "img"
             (Some ([("src", JS.VStr "a.png")]
                    ++ ("title", JS.VStr "first") :: [("title", JS.VStr "second")]))
             "" "" (Some []))
          "title"
  = JS.VStr "first".
Proof.
  refine (proj2 (proj2 (getAttr_first_match
            (mkToken "image" "img"
               (Some ([("src", JS.VStr "a.png")]
                      ++ ("title", JS.VStr "first") :: [("title", JS.VStr "second")]))
               "" "" (Some []))
            "title")) [("src", JS.VStr "a.png")]
            (JS.VStr "first") [("title", JS.VStr "second")] eq_refl _).
  intros a Ha. apply list_elem_of_singleton in Ha. subst a. discriminate.
Defined.

(** ** The cache of the table *)

Lemma tokenTypeInfo_inr schema tokens schema' :
  tokenTypeInfo schema = inr (tokens, schema') ->
  schema' = mkSchema (nodes_doc schema) (registry_parseMarkdown schema) (Some tokens)
  /\ (cached_markdownTokens schema = Some tokens
      \/ cached_markdownTokens schema = None /\ summarizeTokens schema = inr tokens).
Proof.
  unfold tokenTypeInfo. destruct (cached_markdownTokens schema) as [cached|] eqn:Hc.
  - intros [= -> <-]. split; [|now left].
    destruct schema as [doc reg c]. cbn in *. now subst c.
  - destruct (summarizeTokens schema) as [e|t] eqn:Hs; [discriminate|].
    intros [= -> <-]. split; [reflexivity|now right].
Qed.

(** Once [tokenTypeInfo] has returned a table for a schema, the schema
    holds it: every later call returns the same table without looking at
    the declarations again, and [fromMarkdown] gives the same result as on
    the schema before the first call. *)
Theorem tokenTypeInfo_caches schema tokens schema' :
  tokenTypeInfo schema = inr (tokens, schema') ->
  cached_markdownTokens schema' = Some tokens
  /\ tokenTypeInfo schema' = inr (tokens, schema')
  /\ (forall registry,
        tokenTypeInfo (mkSchema (nodes_doc schema') registry (Some tokens))
        = inr (tokens, mkSchema (nodes_doc schema') registry (Some tokens)))
  /\ (forall toks, fromMarkdown schema' toks = fromMarkdown schema toks).
Proof.
  intros Hinfo. destruct (tokenTypeInfo_inr _ _ _ Hinfo) as [-> _].
  split; [reflexivity|]. split; [reflexivity|]. split; [reflexivity|].
  intros toks. unfold fromMarkdown. rewrite Hinfo. reflexivity.
Qed.

Lemma tokenTypeInfo_caches_witness :
  fromMarkdown (mkSchema Doc declarations (Some (tokensOf defaultSchema))) [textTok "x"]
  = fromMarkdown defaultSchema [textTok "x"].
Proof.
  exact (proj2 (proj2 (proj2 (tokenTypeInfo_caches defaultSchema (tokensOf defaultSchema)
           (mkSchema Doc declarations (Some (tokensOf defaultSchema))) eq_refl)))
           [textTok "x"]).
Defined.

(** A parse that throws leaves the table in the cache of the schema: only
    a failure to build the table leaves the schema as it was. *)
Theorem fromMarkdown_cache_after_call schema toks :
  cached_markdownTokens schema = None ->
  (forall tokens,
      summarizeTokens schema = inr tokens ->
      snd (fromMarkdown schema toks)
      = mkSchema (nodes_doc schema) (registry_parseMarkdown schema) (Some tokens))
  /\ (forall e,
        summarizeTokens schema = inl e ->
        fromMarkdown schema toks = (inl e, schema)).
Proof.
  intros Hcache. split.
  - intros tokens Hs. unfold fromMarkdown, tokenTypeInfo. rewrite Hcache, Hs. reflexivity.
  - intros e Hs. unfold fromMarkdown, tokenTypeInfo. rewrite Hcache, Hs. reflexivity.
Qed.

Lemma fromMarkdown_cache_after_call_witness :
  fst (fromMarkdown defaultSchema [tk "bogus"])
  = inl (Error_ "Token type `bogus` not supported by Markdown parser")
  /\ snd (fromMarkdown defaultSchema [tk "bogus"])
     = mkSchema Doc declarations (Some (tokensOf defaultSchema)).
Proof.
  split; [vm_compute; reflexivity|].
  exact (proj1 (fromMarkdown_cache_after_call defaultSchema [tk "bogus"] eq_refl)
           (tokensOf defaultSchema) eq_refl).
Defined.

(** ** What the table holds after the declarations *)

Section Registry.

Variables (tokens : gmap string Handler) (T : SchemaItem) (info : MarkdownParseSpec).

Lemma registerTokens_inr tokens' :
  registerTokens tokens T info = inr tokens' ->
  (parse_eq (parse info) "block" = true
   /\ tokens' = <[token info +:+ "_close" := Call blockClose]>
                  (<[token info +:+ "_open" := Call (blockOpen T info)]> tokens))
  \/ (parse_eq (parse info) "block" = false /\ parse_eq (parse info) "mark" = true
      /\ tokens' = <[token info +:+ "_close" := Call (markClose T)]>
                     (<[token info +:+ "_open" := Call (markOpen T info)]> tokens))
  \/ (parse_eq (parse info) "block" = false /\ parse_eq (parse info) "mark" = false
      /\ exists f, parse info = ParseFunction f
                   /\ tokens' = <[token info := Call (f T)]> tokens).
Proof.
  unfold registerTokens.
  destruct (parse_eq (parse info) "block"); [intros [= <-]; now left|].
  destruct (parse_eq (parse info) "mark"); [intros [= <-]; right; now left|].
  destruct (parse_truthy (parse info)); [|discriminate].
  destruct (parse info) as [s|f|]; try discriminate.
  intros [= <-]. right. right. eauto.
Qed.

Lemma registerTokens_frame tokens' k :
  registerTokens tokens T info = inr tokens' ->
  k ∉ writtenKeys info ->
  tokens' !! k = tokens !! k.
Proof.
  intros Hreg Hk. unfold writtenKeys in Hk.
  destruct (registerTokens_inr _ Hreg)
    as [[Hb ->]|[(Hb & Hm & ->)|(Hb & Hm & f & _ & ->)]];
    rewrite Hb, ?Hm in Hk; cbn [orb] in Hk;
    rewrite ?not_elem_of_cons in Hk.
  - destruct Hk as (Ho & Hc & _). now rewrite !lookup_insert_ne by congruence.
  - destruct Hk as (Ho & Hc & _). now rewrite !lookup_insert_ne by congruence.
  - destruct Hk as (Ht & _). now rewrite lookup_insert_ne by congruence.
Qed.

Lemma registerTokens_keeps tokens' k :
  registerTokens tokens T info = inr tokens' ->
  is_Some (tokens !! k) -> is_Some (tokens' !! k).
Proof.
  intros Hreg Hk.
  destruct (registerTokens_inr _ Hreg)
    as [[_ ->]|[(_ & _ & ->)|(_ & _ & f & _ & ->)]];
    rewrite ?lookup_insert_is_Some'; auto.
Qed.

Lemma registerTokens_recognized :
  (exists tokens', registerTokens tokens T info = inr tokens')
  <-> recognized (parse info) = true.
Proof.
  unfold registerTokens, recognized, parse_eq, parse_truthy, throw, ret.
  destruct (parse info) as [s|f|].
  - destruct (bool_decide (s = "block")); [cbn; split; eauto|].
    destruct (bool_decide (s = "mark")); [cbn; split; eauto|].
    cbn. destruct (negb (String.length s =? 0)%nat);
      (split; [intros [t Ht]; discriminate Ht|intros H; discriminate H]).
  - cbn. split; eauto.
  - cbn. split; [intros [t Ht]; discriminate Ht|intros H; discriminate H].
Qed.

End Registry.

Lemma registerAll_frame entries :
  forall tokens tokens' k,
    registerAll tokens entries = inr tokens' ->
    (forall e, e ∈ entries -> k ∉ writtenKeys e.1) ->
    tokens' !! k = tokens !! k.
Proof.
  induction entries as [|[info T] entries IH]; intros tokens tokens' k Hreg Hk.
  - cbv [registerAll ret] in Hreg. now injection Hreg as <-.
  - cbn [registerAll] in Hreg. unfold bind in Hreg.
    destruct (registerTokens tokens T info) as [e|tokens1] eqn:H1; [discriminate|].
    rewrite (IH _ _ _ Hreg) by (intros e He; apply Hk; now right).
    apply (registerTokens_frame _ _ _ _ _ H1). apply (Hk (info, T)). now left.
Qed.

Lemma registerAll_keeps entries :
  forall tokens tokens' k,
    registerAll tokens entries = inr tokens' ->
    is_Some (tokens !! k) -> is_Some (tokens' !! k).
Proof.
  induction entries as [|[info T] entries IH]; intros tokens tokens' k Hreg Hk.
  - cbv [registerAll ret] in Hreg. now injection Hreg as <-.
  - cbn [registerAll] in Hreg. unfold bind in Hreg.
    destruct (registerTokens tokens T info) as [e|tokens1] eqn:H1; [discriminate|].
    apply (IH _ _ _ Hreg). now apply (registerTokens_keeps _ _ _ _ _ H1).
Qed.

Lemma registerAll_recognized entries :
  forall tokens,
    (exists tokens', registerAll tokens entries = inr tokens')
    <-> forallb (fun e => recognized (parse e.1)) entries = true.
Proof.
  induction entries as [|[info T] entries IH]; intros tokens.
  - cbn. split; eauto.
  - cbn [registerAll forallb fst]. rewrite andb_true_iff.
    rewrite <- (registerTokens_recognized tokens T info). unfold bind. split.
    + intros [tokens' Hreg].
      destruct (registerTokens tokens T info) as [e|tokens1]; [discriminate|].
      split; [eauto|]. apply (IH tokens1). eauto.
    + intros [[tokens1 ->] Hrest]. now apply (IH tokens1).
Qed.

(** The declarations only add to the table: a handler that no declaration
    assigns stays what it was, so the builtin handlers of [text], [inline]
    and [softbreak] are in every table, and are the builtin ones unless a
    declaration names their key. *)
Theorem summarizeTokens_keeps_builtins schema tokens :
  summarizeTokens schema = inr tokens ->
  (forall k,
      (forall e, e ∈ registry_parseMarkdown schema -> k ∉ writtenKeys e.1) ->
      tokens !! k = builtinTokens !! k)
  /\ (forall k, is_Some (builtinTokens !! k) -> is_Some (tokens !! k))
  /\ is_Some (tokens !! "text") /\ is_Some (tokens !! "inline")
  /\ is_Some (tokens !! "softbreak")
  /\ ((forall e, e ∈ registry_parseMarkdown schema -> "text" ∉ writtenKeys e.1) ->
      tokens !! "text" = Some (Call textHandler)).
Proof.
  intros Hs. unfold summarizeTokens in Hs.
  assert (Hkeep : forall k, is_Some (builtinTokens !! k) -> is_Some (tokens !! k))
    by (intros k; apply (registerAll_keeps _ _ _ _ Hs)).
  split; [intros k; apply (registerAll_frame _ _ _ _ Hs)|].
  split; [exact Hkeep|].
  split; [apply Hkeep; now eexists|]. split; [apply Hkeep; now eexists|].
  split; [apply Hkeep; now eexists|].
  intros Hk. now rewrite (registerAll_frame _ _ _ _ Hs Hk).
Qed.

Lemma summarizeTokens_keeps_builtins_witness :
  tokensOf defaultSchema !! "unknown" = None
  /\ tokensOf defaultSchema !! "text" = Some (Call textHandler).
Proof.
  destruct (summarizeTokens_keeps_builtins defaultSchema (tokensOf defaultSchema) eq_refl)
    as (Hframe & _ & _ & _ & _ & Htext).
  split.
  - rewrite Hframe; [reflexivity|]. apply Forall_forall.
    repeat (constructor; [apply (bool_decide_unpack _); vm_compute; exact I|]).
    constructor.
  - apply Htext. apply Forall_forall.
    repeat (constructor; [apply (bool_decide_unpack _); vm_compute; exact I|]).
    constructor.
Defined.

(** The table can be built exactly when the [parse] of every declaration
    is ["block"], ["mark"] or a function. *)
Theorem summarizeTokens_succeeds_iff schema :
  (exists tokens, summarizeTokens schema = inr tokens)
  <-> forallb (fun e => recognized (parse e.1)) (registry_parseMarkdown schema) = true.
Proof. apply registerAll_recognized. Qed.

Lemma summarizeTokens_succeeds_iff_witness :
  exists tokens, summarizeTokens defaultSchema = inr tokens.
Proof.
  exact (proj2 (summarizeTokens_succeeds_iff defaultSchema) eq_refl).
Defined.

Lemma registerAll_inr_app tokens before rest tokens' :
  registerAll tokens (before ++ rest) = inr tokens' ->
  exists tokens1,
    registerAll tokens before = inr tokens1 /\ registerAll tokens1 rest = inr tokens'.
Proof.
  rewrite registerAll_app. unfold bind.
  destruct (registerAll tokens before) as [e|tokens1]; [discriminate|]. eauto.
Qed.

(** The handlers of a declaration are in the table under its keys as long
    as no later declaration assigns one of these keys; what earlier
    declarations or the builtin handlers had put there is replaced. A
    [parse] function is stored under the token name itself, bound to the
    type of the declaration. *)
Theorem later_declaration_wins tokens before info T after tokens' :
  registerAll tokens (before ++ (info, T) :: after) = inr tokens' ->
  (forall e k, e ∈ after -> k ∈ writtenKeys info -> k ∉ writtenKeys e.1) ->
  (forall f, parse info = ParseFunction f ->
             tokens' !! token info = Some (Call (f T)))
  /\ (parse info = ParseString "block" ->
      tokens' !! (token info +:+ "_open") = Some (Call (blockOpen T info))
      /\ tokens' !! (token info +:+ "_close") = Some (Call blockClose))
  /\ (parse info = ParseString "mark" ->
      tokens' !! (token info +:+ "_open") = Some (Call (markOpen T info))
      /\ tokens' !! (token info +:+ "_close") = Some (Call (markClose T))).
Proof.
  intros Hreg Hlater.
  destruct (registerAll_inr_app _ _ _ _ Hreg) as (tokens1 & _ & Hrest).
  cbn [registerAll] in Hrest. unfold bind in Hrest.
  destruct (registerTokens tokens1 T info) as [e|tokens2] eqn:H2; [discriminate|].
  assert (Hkeep : forall k, k ∈ writtenKeys info -> tokens' !! k = tokens2 !! k).
  { intros k Hk. apply (registerAll_frame _ _ _ _ Hrest). intros e He. now apply Hlater. }
  assert (Hne := append_open_close_ne (token info)).
  unfold writtenKeys in Hkeep.
  destruct (registerTokens_inr _ _ _ _ H2)
    as [[Hb ->]|[(Hb & Hm & ->)|(Hb & Hm & f & Hf & ->)]];
    rewrite Hb, ?Hm in Hkeep; cbn [orb] in Hkeep.
  - split; [|split].
    + intros f Hf. rewrite Hf in Hb. discriminate.
    + intros _. rewrite !Hkeep by set_solver.
      rewrite lookup_insert_eq, lookup_insert_ne, lookup_insert_eq by congruence. auto.
    + intros Hp. rewrite Hp in Hb. discriminate.
  - split; [|split].
    + intros f Hf. rewrite Hf in Hm. discriminate.
    + intros Hp. rewrite Hp in Hb. discriminate.
    + intros _. rewrite !Hkeep by set_solver.
      rewrite lookup_insert_eq, lookup_insert_ne, lookup_insert_eq by congruence. auto.
  - split; [|split].
    + intros f' Hf'. rewrite Hf in Hf'. injection Hf' as <-.
      rewrite Hkeep by set_solver. apply lookup_insert_eq.
    + intros Hp. rewrite Hp in Hb. discriminate.
    + intros Hp. rewrite Hp in Hm. discriminate.
Qed.

Lemma later_declaration_wins_witness :
  tokensOf (mkSchema Doc
              ([(paragraphSpec, Paragraph)]
               ++ (mkSpec "text" (ParseFunction parseHardBreak) (AttrsObject None), HardBreak)
               :: []) None) !! "text"
  = Some (Call (parseHardBreak HardBreak)).
Proof.
  refine (proj1 (later_declaration_wins builtinTokens [(paragraphSpec, Paragraph)]
            (mkSpec "text" (ParseFunction parseHardBreak) (AttrsObject None))
            HardBreak [] _ eq_refl _) parseHardBreak eq_refl).
  intros e k He. now apply elem_of_nil in He.
Defined.

(** ** How tokens compose *)

(** An [inline] token under the builtin handler stands for its children:
    the sequence with the token is consumed like the sequence with the
    children in its place. When [tok.children] is [null] the token throws
    a [TypeError]. *)
Theorem inline_token_is_its_children tokenTypes tok :
  tokenTypes !! tok_type tok = Some Inline ->
  (tok_children tok = None ->
   forall st, parseToken tokenTypes tok st = inl (TypeError "toks is null"))
  /\ (forall children before after st,
        tok_children tok = Some children ->
        parseTokens tokenTypes (before ++ tok :: after) st
        = parseTokens tokenTypes (before ++ children ++ after) st).
Proof.
  intros Hh. split.
  - destruct tok as [ty tg at_ ct mk ch]. cbn [tok_type tok_children] in *.
    intros -> st. cbn [parseToken]. now rewrite Hh.
  - intros children before after st Hch.
    rewrite (parseTokens_app _ before (tok :: after)).
    rewrite (parseTokens_app _ before (children ++ after)).
    unfold bindM. destruct (parseTokens tokenTypes before st) as [e|[[] st1]];
      [reflexivity|].
    cbn [parseTokens]. rewrite (parseToken_inline _ _ _ Hh Hch).
    rewrite parseTokens_app. reflexivity.
Qed.

Lemma inline_token_is_its_children_witness :
  parseTokens (tokensOf defaultSchema)
    ([tk "paragraph_open"] ++ inlineTok [textTok "a"; tk "hardbreak"] :: [textTok "b"])
    (initialState defaultSchema)
  = parseTokens (tokensOf defaultSchema)
      ([tk "paragraph_open"] ++ [textTok "a"; tk "hardbreak"] ++ [textTok "b"])
      (initialState defaultSchema).
Proof.
  exact (proj2 (inline_token_is_its_children (tokensOf defaultSchema)
                  (inlineTok [textTok "a"; tk "hardbreak"]) eq_refl)
           [textTok "a"; tk "hardbreak"] [tk "paragraph_open"] [textTok "b"]
           (initialState defaultSchema) eq_refl).
Defined.

(** A [softbreak] between two texts consumed under one Mark Set joins them
    into one run, with a line feed between the two contents. *)
Theorem softbreak_joins_texts tokenTypes t1 sb t2 :
  tokenTypes !! "text" = Some (Call textHandler) ->
  tokenTypes !! "softbreak" = Some (Call softbreakHandler) ->
  tok_type t1 = "text" -> tok_type sb = "softbreak" -> tok_type t2 = "text" ->
  forall st,
    parseTokens tokenTypes [t1; sb; t2] st
    = addText (tok_content t1 +:+ JS.LF +:+ tok_content t2) st.
Proof.
  intros Ht Hs H1 Hsb H2 st. cbn [parseTokens].
  rewrite (parseTokens_text _ _ Ht H1), (parseTokens_text _ _ Ht H2).
  rewrite (parseToken_call tokenTypes sb softbreakHandler) by now rewrite Hsb.
  unfold softbreakHandler. rewrite <- addText_twice. unfold bindM.
  destruct (addText (tok_content t1) st) as [e|[[] st1]]; [reflexivity|].
  rewrite <- addText_twice. unfold bindM.
  destruct (addText JS.LF st1) as [e|[[] st2]]; [reflexivity|].
  now destruct (addText (tok_content t2) st2) as [e|[[] st3]].
Qed.

Lemma softbreak_joins_texts_witness :
  parseTokens (tokensOf defaultSchema) [textTok "a"; tk "softbreak"; textTok "b"]
    (mkState [mkFrame Paragraph None []] [])
  = inr (tt, mkState [mkFrame Paragraph None [Text ("a" +:+ JS.LF +:+ "b") []]] []).
Proof.
  rewrite (softbreak_joins_texts (tokensOf defaultSchema) (textTok "a") (tk "softbreak")
             (textTok "b") eq_refl eq_refl eq_refl eq_refl eq_refl).
  reflexivity.
Defined.

Lemma bindM_assoc {A B C} (m : M A) (k1 : A -> M B) (k2 : B -> M C) st :
  bindM (bindM m k1) k2 st = bindM m (fun x => bindM (k1 x) k2) st.
Proof. unfold bindM. now destruct (m st) as [e|[a st1]]. Qed.

Lemma addNode_run T a c st :
  addNode T a c st
  = inr (Elem T a c (marks st),
         mkState (pushOnto (Elem T a c (marks st)) (stack st)) (marks st)).
Proof. reflexivity. Qed.

(** A token whose handler adds a node (a hard break, a rule, an image)
    puts it after what the top frame holds, with the active Mark Set, and
    leaves the stack and the marks as they are; a text that follows starts
    a new run, it is not merged into the text before the node. *)
Theorem leaf_node_separates_texts tokenTypes t1 leaf t2 h T a c :
  tokenTypes !! "text" = Some (Call textHandler) ->
  tok_type t1 = "text" -> tok_type t2 = "text" ->
  tokenTypes !! tok_type leaf = Some (Call h) ->
  h leaf = bindM (addNode T a c) (fun _ => retM tt) ->
  forall f below m,
    parseTokens tokenTypes [t1; leaf; t2] (mkState (f :: below) m)
    = inr (tt, mkState
                 (mkFrame (type f) (attrs f)
                    (appendOrMerge (content f) (Text (tok_content t1) m)
                     ++ [Elem T a c m; Text (tok_content t2) m])
                  :: below) m).
Proof.
  intros Ht H1 H2 Hl Hh f below m. cbn [parseTokens].
  rewrite (parseTokens_text _ _ Ht H1), (parseTokens_text _ _ Ht H2).
  rewrite (parseToken_call _ _ _ Hl), Hh.
  rewrite (bindM_inr (addText (tok_content t1)) _ _ tt
             (mkState (mkFrame (type f) (attrs f)
                         (appendOrMerge (content f) (Text (tok_content t1) m)) :: below) m))
    by reflexivity.
  rewrite bindM_assoc, (bindM_inr _ _ _ _ _ (addNode_run T a c _)).
  unfold bindM, addText, retM.
  cbn [stack marks content type attrs pushOnto].
  change [Elem T a c m; Text (tok_content t2) m]
    with ([Elem T a c m] ++ [Text (tok_content t2) m]).
  rewrite app_assoc, appendOrMerge_snoc. cbn [maybeMerge].
  now rewrite <- !app_assoc.
Qed.

Lemma leaf_node_separates_texts_witness :
  parseTokens (tokensOf defaultSchema) [textTok "a"; tk "hardbreak"; textTok "b"]
    (mkState [mkFrame Paragraph None []; mkFrame Doc None []] [create EmMark None])
  = inr (tt, mkState
               [mkFrame Paragraph None
                  [Text "a" [create EmMark None];
                   Elem HardBreak None None [create EmMark None];
                   Text "b" [create EmMark None]];
                mkFrame Doc None []] [create EmMark None]).
Proof.
  exact (leaf_node_separates_texts (tokensOf defaultSchema) (textTok "a")
           (tk "hardbreak") (textTok "b") (parseHardBreak HardBreak) HardBreak None None
           eq_refl eq_refl eq_refl eq_refl eq_refl
           (mkFrame Paragraph None []) [mkFrame Doc None []] [create EmMark None]).
Defined.

(** An open token of a ["block"] declaration, tokens that leave a frame on
    top of the stack, and a close token: the frame that is on top when the
    close token comes becomes one node, without marks, appended to the
    frame below it, and no mark stays active. *)
Theorem block_pair_closes_top_frame tokenTypes o body c T info :
  tokenTypes !! tok_type o = Some (Call (blockOpen T info)) ->
  tokenTypes !! tok_type c = Some (Call blockClose) ->
  forall st a st1 f rest m',
    computeAttrs info o st = inr (a, st1) ->
    parseTokens tokenTypes body (mkState (mkFrame T a [] :: stack st1) (marks st1))
    = inr (tt, mkState (f :: rest) m') ->
    parseTokens tokenTypes (o :: body ++ [c]) st
    = inr (tt, mkState
                 (pushOnto (createAutoFill (type f) (attrs f) (Some (content f)) noMarks)
                    rest) noMarks).
Proof.
  intros Ho Hc st a st1 f rest m' Ha Hbody.
  cbn [parseTokens]. rewrite (parseToken_call _ _ _ Ho).
  unfold bindM at 1. unfold blockOpen at 1. unfold bindM at 1. rewrite Ha.
  unfold openNode. rewrite parseTokens_app, (bindM_inr _ _ _ _ _ Hbody).
  rewrite parseTokens_one, (parseToken_call _ _ _ Hc). unfold blockClose.
  now rewrite (bindM_inr _ _ _ _ _ (closeNode_cons f rest m')).
Qed.

Lemma block_pair_closes_top_frame_witness :
  parseTokens (tokensOf defaultSchema)
    (tk "paragraph_open" :: [textTok "a"; tk "em_open"; textTok "b"] ++ [tk "paragraph_close"])
    (initialState defaultSchema)
  = inr (tt, mkState
               [mkFrame Doc None
                  [Elem Paragraph None
                     (Some [Text "a" []; Text "b" [create EmMark None]]) []]] []).
Proof.
  refine (block_pair_closes_top_frame (tokensOf defaultSchema) (tk "paragraph_open")
            [textTok "a"; tk "em_open"; textTok "b"] (tk "paragraph_close")
            Paragraph paragraphSpec eq_refl eq_refl (initialState defaultSchema)
            None (initialState defaultSchema)
            (mkFrame Paragraph None [Text "a" []; Text "b" [create EmMark None]])
            [mkFrame Doc None []] [create EmMark None] eq_refl _).
  vm_compute. reflexivity.
Defined.

(** ** Marks *)

Lemma elem_of_addToSet (mark x : Mark) (set : list Mark) :
  x ∈ addToSet mark set <-> x = mark \/ x ∈ set.
Proof.
  unfold addToSet. destruct (decide (mark ∈ set)) as [Hin|Hnin].
  - split; [now right|]. now intros [->|H].
  - rewrite elem_of_app, list_elem_of_singleton. tauto.
Qed.

Lemma addToSet_NoDup (mark : Mark) (set : list Mark) :
  NoDup set -> NoDup (addToSet mark set).
Proof.
  intros Hnd. unfold addToSet. destruct (decide (mark ∈ set)) as [Hin|Hnin]; [exact Hnd|].
  apply NoDup_app. split; [exact Hnd|]. split; [|apply NoDup_singleton].
  intros x Hx Hm. apply list_elem_of_singleton in Hm. now subst x.
Qed.

Lemma removeFromSet_absent (T : MarkType) (set : list Mark) :
  (forall m, m ∈ set -> mark_type m <> T) -> removeFromSet T set = set.
Proof.
  intros Hall. unfold removeFromSet.
  induction set as [|m set IH]; [reflexivity|].
  rewrite filter_cons. destruct (decide (mark_type m ≠ T)) as [_|Hn].
  - f_equal. apply IH. intros m' Hin. apply Hall. now right.
  - destruct Hn. apply Hall. now left.
Qed.

Lemma remove_after_add (T : MarkType) (a : option Attrs) (set : list Mark) :
  (forall m, m ∈ set -> mark_type m <> T) ->
  addToSet (create T a) set = set ++ [create T a]
  /\ removeFromSet T (addToSet (create T a) set) = set.
Proof.
  intros Hall.
  assert (Hadd : addToSet (create T a) set = set ++ [create T a]).
  { unfold addToSet. destruct (decide (create T a ∈ set)) as [Hin|]; [|reflexivity].
    now destruct (Hall _ Hin). }
  split; [exact Hadd|]. rewrite Hadd. unfold removeFromSet. rewrite filter_app.
  fold (removeFromSet T set). rewrite (removeFromSet_absent _ _ Hall).
  rewrite filter_cons. cbn [mark_type]. destruct (decide (T ≠ T)) as [Hn|_]; [now destruct Hn|].
  apply app_nil_r.
Qed.

(** The open handler of a ["mark"] declaration leaves the stack alone and
    makes the mark built from the computed attributes active: the marks
    that were active stay, in their order, nothing else comes in, no
    duplicate appears, and a mark that is already active with the same
    attributes changes nothing. *)
Theorem mark_open_handler tokens T info :
  parse info = ParseString "mark" ->
  (exists tokens',
      registerTokens tokens T info = inr tokens'
      /\ tokens' !! (token info +:+ "_open") = Some (Call (markOpen T info)))
  /\ (forall tok st a st1,
        computeAttrs info tok st = inr (a, st1) ->
        exists marks',
          markOpen T info tok st = inr (tt, mkState (stack st1) marks')
          /\ create T a ∈ marks'
          /\ marks st1 `prefix_of` marks'
          /\ (forall x, x ∈ marks' -> x = create T a \/ x ∈ marks st1)
          /\ (NoDup (marks st1) -> NoDup marks')
          /\ (create T a ∈ marks st1 -> marks' = marks st1)).
Proof.
  intros Hparse. split.
  { eexists. split.
    - unfold registerTokens. rewrite Hparse. cbn [parse_eq].
      rewrite bool_decide_eq_false_2 by discriminate.
      rewrite bool_decide_eq_true_2 by reflexivity. reflexivity.
    - rewrite lookup_insert_ne
        by (intros H; symmetry in H; now apply append_open_close_ne in H).
      apply lookup_insert_eq. }
  intros tok st a st1 Ha. exists (addToSet (create T a) (marks st1)).
  split; [unfold markOpen; now rewrite (bindM_inr _ _ _ _ _ Ha)|].
  split; [apply elem_of_addToSet; now left|]. split.
  { unfold addToSet. destruct (decide (create T a ∈ marks st1)); [reflexivity|].
    now apply prefix_app_r. }
  split; [intros x; apply elem_of_addToSet|].
  split; [apply addToSet_NoDup|].
  intros Hin. unfold addToSet. now rewrite decide_True.
Qed.

Lemma mark_open_handler_witness :
  exists marks',
    markOpen LinkMark linkSpec
      (mkToken "link_open" "a" (Some [("href", JS.VStr "u")]) "" "" None)
      (mkState [mkFrame Doc None []] [create EmMark None])
    = inr (tt, mkState [mkFrame Doc None []] marks')
    /\ create LinkMark (Some [("href", JS.VStr "u"); ("title", JS.VNull)]) ∈ marks'
    /\ [create EmMark None] `prefix_of` marks'.
Proof.
  destruct (proj2 (mark_open_handler builtinTokens LinkMark linkSpec eq_refl)
              (mkToken "link_open" "a" (Some [("href", JS.VStr "u")]) "" "" None)
              (mkState [mkFrame Doc None []] [create EmMark None])
              (Some [("href", JS.VStr "u"); ("title", JS.VNull)])
              (mkState [mkFrame Doc None []] [create EmMark None]) eq_refl)
    as (marks' & Hrun & Hin & Hpre & _).
  exists marks'. exact (conj Hrun (conj Hin Hpre)).
Defined.

(** A text between the open and the close token of a ["mark"] declaration
    is styled with the active marks and the new mark after them; when no
    mark of that type was active before, the close token gives back
    exactly the Mark Set that was active before the open token. *)
Theorem mark_pair_styles_text tokenTypes o t c T info :
  tokenTypes !! tok_type o = Some (Call (markOpen T info)) ->
  tokenTypes !! "text" = Some (Call textHandler) ->
  tok_type t = "text" ->
  tokenTypes !! tok_type c = Some (Call (markClose T)) ->
  forall f below m a,
    computeAttrs info o (mkState (f :: below) m) = inr (a, mkState (f :: below) m) ->
    (forall x, x ∈ m -> mark_type x <> T) ->
    parseTokens tokenTypes [o; t; c] (mkState (f :: below) m)
    = inr (tt, mkState
                 (mkFrame (type f) (attrs f)
                    (appendOrMerge (content f)
                       (Text (tok_content t) (m ++ [create T a])))
                  :: below) m).
Proof.
  intros Ho Ht Hty Hc f below m a Ha Hm. cbn [parseTokens].
  rewrite (parseToken_call _ _ _ Ho), (parseTokens_text _ _ Ht Hty),
    (parseToken_call _ _ _ Hc).
  destruct (remove_after_add T a m Hm) as [Hadd Hrem].
  unfold markOpen. rewrite bindM_assoc, (bindM_inr _ _ _ _ _ Ha).
  unfold bindM, openMark, addText, markClose, closeMark, retM.
  cbn [stack marks content type attrs]. now rewrite Hrem, Hadd.
Qed.

Lemma mark_pair_styles_text_witness :
  parseTokens (tokensOf defaultSchema) [tk "em_open"; textTok "b"; tk "em_close"]
    (mkState [mkFrame Paragraph None [Text "a" []]] [])
  = inr (tt, mkState
               [mkFrame Paragraph None [Text "a" []; Text "b" [create EmMark None]]] []).
Proof.
  refine (mark_pair_styles_text (tokensOf defaultSchema) (tk "em_open") (textTok "b")
            (tk "em_close") EmMark emSpec eq_refl eq_refl eq_refl eq_refl
            (mkFrame Paragraph None [Text "a" []]) [] [] None eq_refl _).
  intros x Hx. now apply elem_of_nil in Hx.
Defined.



(** ** [addText] *)

(** [addText] never opens or closes a frame and never touches the marks,
    the frames below the top, or the type and attributes of the top frame.
    The top frame keeps its children or gets one more, and afterwards its
    last child is a text that ends with the text added. *)
Theorem addText_touches_only_last_child text st st' :
  addText text st = inr (tt, st') ->
  marks st' = marks st
  /\ exists f f' below,
       stack st = f :: below /\ stack st' = f' :: below
       /\ type f' = type f /\ attrs f' = attrs f
       /\ (List.length (content f') = List.length (content f)
           \/ List.length (content f') = S (List.length (content f)))
       /\ exists c x m0, content f' = c ++ [Text (x +:+ text) m0].
Proof.
  unfold addText. destruct st as [[|f below] m]; cbn [stack marks]; [discriminate|].
  intros [= <-]. split; [reflexivity|]. eexists f, _, below.
  split; [reflexivity|]. split; [reflexivity|]. split; [reflexivity|].
  split; [reflexivity|]. cbn [content]. split.
  - unfold appendOrMerge. destruct (last (content f)) as [l|].
    + destruct (maybeMerge l (Text text m)).
      * left. apply length_insert.
      * right. rewrite length_app. cbn. lia.
    + right. rewrite length_app. cbn. lia.
  - destruct (appendOrMerge_ends (content f) text m) as (c & x & m0 & Hc & _). eauto.
Qed.

Lemma addText_touches_only_last_child_witness :
  marks (mkState [mkFrame Paragraph None [Text "ab" []]] []) = []
  /\ exists f f' below,
       stack (mkState [mkFrame Paragraph None [Text "a" []]] []) = f :: below
       /\ stack (mkState [mkFrame Paragraph None [Text "ab" []]] []) = f' :: below
       /\ type f' = type f /\ attrs f' = attrs f
       /\ (List.length (content f') = List.length (content f)
           \/ List.length (content f') = S (List.length (content f)))
       /\ exists c x m0, content f' = c ++ [Text (x +:+ "b") m0].
Proof.
  exact (addText_touches_only_last_child "b"
           (mkState [mkFrame Paragraph None [Text "a" []]] [])
           (mkState [mkFrame Paragraph None [Text "ab" []]] []) eq_refl).
Defined.

(** ** Images *)



(** ** After the root frame is closed *)

(** A close token that meets only the root frame empties the stack; the
    node of the root is attached nowhere. From then on a text token or
    another close token throws a [TypeError], while a token that adds a
    node is consumed without any effect: its node is dropped. *)
Theorem tokens_after_root_closed tokenTypes c :
  tokenTypes !! tok_type c = Some (Call blockClose) ->
  forall root m,
    parseTokens tokenTypes [c] (mkState [root] m) = inr (tt, mkState [] noMarks)
    /\ (forall t rest,
          tokenTypes !! tok_type t = Some (Call textHandler) ->
          parseTokens tokenTypes (c :: t :: rest) (mkState [root] m)
          = inl (TypeError "this.top() is undefined"))
    /\ (forall c2 rest,
          tokenTypes !! tok_type c2 = Some (Call blockClose) ->
          parseTokens tokenTypes (c :: c2 :: rest) (mkState [root] m)
          = inl (TypeError "info is undefined"))
    /\ (forall leaf h T a ch rest,
          tokenTypes !! tok_type leaf = Some (Call h) ->
          h leaf = bindM (addNode T a ch) (fun _ => retM tt) ->
          parseTokens tokenTypes (c :: leaf :: rest) (mkState [root] m)
          = parseTokens tokenTypes rest (mkState [] noMarks)).
Proof.
  intros Hc root m.
  assert (Hclose : parseToken tokenTypes c (mkState [root] m) = inr (tt, mkState [] noMarks)).
  { rewrite (parseToken_call _ _ _ Hc). unfold blockClose.
    now rewrite (bindM_inr _ _ _ _ _ (closeNode_cons root [] m)). }
  split; [now rewrite parseTokens_one|]. split; [|split].
  - intros t rest Ht. cbn [parseTokens]. rewrite (bindM_inr _ _ _ _ _ Hclose).
    now rewrite (parseToken_call _ _ _ Ht).
  - intros c2 rest Hc2. cbn [parseTokens]. rewrite (bindM_inr _ _ _ _ _ Hclose).
    now rewrite (parseToken_call _ _ _ Hc2).
  - intros leaf h T a ch rest Hl Hh. cbn [parseTokens].
    rewrite (bindM_inr _ _ _ _ _ Hclose), (parseToken_call _ _ _ Hl), Hh.
    now rewrite bindM_assoc, (bindM_inr _ _ _ _ _ (addNode_run T a ch _)).
Qed.

Lemma tokens_after_root_closed_witness :
  parseTokens (tokensOf defaultSchema) [tk "paragraph_close"; tk "hr"]
    (initialState defaultSchema)
  = inr (tt, mkState [] noMarks)
  /\ parseTokens (tokensOf defaultSchema) [tk "paragraph_close"; textTok "x"]
       (initialState defaultSchema)
     = inl (TypeError "this.top() is undefined").
Proof.
  destruct (tokens_after_root_closed (tokensOf defaultSchema) (tk "paragraph_close")
              eq_refl (mkFrame Doc None []) []) as (_ & Htext & _ & Hleaf).
  split.
  - exact (Hleaf (tk "hr") (parseHorizontalRule HorizontalRule) HorizontalRule
             (Some [("markup", JS.VStr "")]) None [] eq_refl eq_refl).
  - exact (Htext (textTok "x") [] eq_refl).
Defined.
